(** * SoccerGame: the goalie (semSharedMemGoalie.c)

    A shallow embedding of the four operations of the goalie process
    ([arrive], [goalieConstituteTeam], [waitReferee], [playUntilEnd]) and of
    the life cycle that [main] runs, over an explicit model of the shared
    memory region and of the semaphore calls, followed by the properties of
    the team-formation protocol that the goalie's code decides. *)

From Stdlib Require Import ZArith Lia List Bool.
From stdpp Require Import base decidable option list.
Import ListNotations.

Local Open Scope Z_scope.

(** ** The shared region *)

(** The states a goalie writes into its status entry (macros of probConst.h). *)
Inductive status : Type :=
| ARRIVING
| WAITING_TEAM
| FORMING_TEAM
| LATE
| WAITING_START_1
| WAITING_START_2
| PLAYING_1
| PLAYING_2.

#[global] Instance status_eq_dec : EqDecision status.
Proof. solve_decision. Defined.

(** Modelled from the spec: the declaration of the shared structure
    (probDataStruct.h) is not part of the sources.  The fields are those the
    goalie accesses ([sh->fSt.st.goalieStat], [goaliesArrived], [goaliesFree],
    [playersFree], [teamId]) and the symmetric ones section 3 of the
    specification lists for the field players.  The counters are C [int]s;
    they count processes and teams and stay far from the bounds of [int],
    beyond which C gives [++] no meaning, so they are integers here. *)
Record STAT : Type := mkSTAT {
  goalieStat : list status;
  playerStat : list status
}.

Record FULL_STAT : Type := mkFULL_STAT {
  st : STAT;
  playersArrived : Z;
  goaliesArrived : Z;
  playersFree : Z;
  goaliesFree : Z;
  teamId : Z
}.

(** [sh->fSt.st.goalieStat[id] = v].  [main] only admits [id < NUMGOALIES];
    outside the array the C statement has no defined meaning and the model
    leaves the region as it is. *)
Definition set_goalieStat (id : nat) (v : status) (s : FULL_STAT) : FULL_STAT :=
  mkFULL_STAT (mkSTAT (<[id := v]> (goalieStat (st s))) (playerStat (st s)))
              (playersArrived s) (goaliesArrived s) (playersFree s)
              (goaliesFree s) (teamId s).

Definition set_playersArrived (v : Z) (s : FULL_STAT) : FULL_STAT :=
  mkFULL_STAT (st s) v (goaliesArrived s) (playersFree s) (goaliesFree s) (teamId s).

Definition set_goaliesArrived (v : Z) (s : FULL_STAT) : FULL_STAT :=
  mkFULL_STAT (st s) (playersArrived s) v (playersFree s) (goaliesFree s) (teamId s).

Definition set_playersFree (v : Z) (s : FULL_STAT) : FULL_STAT :=
  mkFULL_STAT (st s) (playersArrived s) (goaliesArrived s) v (goaliesFree s) (teamId s).

Definition set_goaliesFree (v : Z) (s : FULL_STAT) : FULL_STAT :=
  mkFULL_STAT (st s) (playersArrived s) (goaliesArrived s) (playersFree s) v (teamId s).

Definition set_teamId (v : Z) (s : FULL_STAT) : FULL_STAT :=
  mkFULL_STAT (st s) (playersArrived s) (goaliesArrived s) (playersFree s) (goaliesFree s) v.

(** The status entry of goalie [id], as anybody reads it. *)
Definition status_of (id : nat) (s : FULL_STAT) : option status :=
  goalieStat (st s) !! id.

(** ** Semaphores and the history of a process *)

(** The semaphores of the set [semgid] that the goalie names through [sh]. *)
Inductive semaphore : Type :=
| mutex
| playersWaitTeam
| goaliesWaitTeam
| playersWaitReferee
| playersWaitEnd
| refereeWaitTeams
| playerRegistered
| playing.

#[global] Instance semaphore_eq_dec : EqDecision semaphore.
Proof. solve_decision. Defined.

(** What a process does that the rest of the system can tell: semaphore
    calls that returned, reads and writes of the shared region, snapshots
    handed to the logger, and the pause at the end of [arrive]. *)
Inductive event : Type :=
| Down (s : semaphore)
| Up (s : semaphore)
| Load (seen : FULL_STAT)
| Store (before after : FULL_STAT)
| SaveState (snapshot : FULL_STAT)
| Usleep.

(** A history lists the events of one process, the most recent first. *)
Definition history : Type := list event.

(** Whether the process holds [sh->mutex] at the end of history [h]. *)
Fixpoint holds_mutex (h : history) : bool :=
  match h with
  | [] => false
  | Down mutex :: _ => true
  | Up mutex :: _ => false
  | _ :: h' => holds_mutex h'
  end.

(** The rest of the system, as one process meets it: whether the semaphore
    call it is about to make fails (returns -1), and what the other processes
    have done to the shared region by the time a call (or the pause) gives
    control back.  Both depend on the history of the process so far. *)
Record oracle : Type := mkOracle {
  sem_fails : history -> bool;
  others : history -> FULL_STAT -> FULL_STAT
}.

Record process : Type := mkProcess {
  shm : FULL_STAT;
  log : history
}.

(** ** The monad of a process *)

(** [exit (EXIT_FAILURE)] ends the process wherever it is called. *)
Inductive outcome (A : Type) : Type :=
| Returned (a : A)
| Exited.
Arguments Returned {A} a.
Arguments Exited {A}.

Definition M (A : Type) : Type := oracle -> process -> outcome A * process.

Definition ret {A : Type} (a : A) : M A := fun _ p => (Returned a, p).

Definition bind {A B : Type} (c : M A) (k : A -> M B) : M B :=
  fun o p =>
    match c o p with
    | (Returned a, p') => k a o p'
    | (Exited, p') => (Exited, p')
    end.

Declare Scope proc_scope.
Delimit Scope proc_scope with proc.
Notation "x <- c ;; k" := (bind c (fun x => k))
  (at level 20, c at level 99, k at level 200, only parsing) : proc_scope.
Notation "c ;; k" := (bind c (fun _ => k))
  (at level 100, k at level 200, right associativity, only parsing) : proc_scope.
Local Open Scope proc_scope.

(** [if (semDown (semgid, s) == -1) { perror (...); exit (EXIT_FAILURE); }] *)
Definition semDown (s : semaphore) : M unit :=
  fun o p =>
    if sem_fails o (log p) then (Exited, p)
    else let h := Down s :: log p in
         (Returned tt, mkProcess (others o h (shm p)) h).

(** [if (semUp (semgid, s) == -1) { perror (...); exit (EXIT_FAILURE); }] *)
Definition semUp (s : semaphore) : M unit :=
  fun o p =>
    if sem_fails o (log p) then (Exited, p)
    else let h := Up s :: log p in
         (Returned tt, mkProcess (others o h (shm p)) h).

(** [usleep (...)]: the process is away for a while. *)
Definition usleep : M unit :=
  fun o p =>
    let h := Usleep :: log p in
    (Returned tt, mkProcess (others o h (shm p)) h).

(** Reading the shared region in an expression. *)
Definition load : M FULL_STAT :=
  fun _ p => (Returned (shm p), mkProcess (shm p) (Load (shm p) :: log p)).

(** An assignment to a field of the shared region. *)
Definition store (f : FULL_STAT -> FULL_STAT) : M unit :=
  fun _ p =>
    (Returned tt, mkProcess (f (shm p)) (Store (shm p) (f (shm p)) :: log p)).

(** [sh->fSt.teamId++] used as a value. *)
Definition teamId_post_increment : M Z :=
  fun _ p =>
    let s := shm p in
    (Returned (teamId s),
     mkProcess (set_teamId (teamId s + 1) s)
               (Store s (set_teamId (teamId s + 1) s) :: log p)).

(** [saveState (nFic, &sh->fSt)] *)
Definition saveState : M unit :=
  fun _ p => (Returned tt, mkProcess (shm p) (SaveState (shm p) :: log p)).

(** [for (int i = 0; i < n; i++) body] *)
Fixpoint for_loop (n : nat) (body : M unit) : M unit :=
  match n with
  | O => ret tt
  | S n' => body ;; for_loop n' body
  end.

(** ** The operations of the goalie *)

Section Goalie.

(** Constants of probConst.h, which is not part of the sources. *)
Variable NUMTEAMPLAYERS : Z.
Variable NUMTEAMGOALIES : Z.

Definition arrive (id : nat) : M unit :=
  semDown mutex ;;
  store (set_goalieStat id ARRIVING) ;;
  saveState ;;
  semUp mutex ;;
  usleep.

Definition goalieConstituteTeam (id : nat) : M Z :=
  semDown mutex ;;
  store (fun s => set_goaliesFree (goaliesFree s + 1) s) ;;
  store (fun s => set_goaliesArrived (goaliesArrived s + 1) s) ;;
  r <- (s <- load ;;
        if goaliesArrived s <=? 2 then
          s' <- load ;;
          if (playersFree s' <? NUMTEAMPLAYERS) || (goaliesFree s' <? NUMTEAMGOALIES) then
            store (set_goalieStat id WAITING_TEAM) ;;
            saveState ;;
            ret 0
          else
            store (set_goalieStat id FORMING_TEAM) ;;
            saveState ;;
            store (fun s => set_playersFree (playersFree s - NUMTEAMPLAYERS) s) ;;
            store (fun s => set_goaliesFree (goaliesFree s - NUMTEAMGOALIES) s) ;;
            for_loop (Z.to_nat NUMTEAMPLAYERS)
                     (semUp playersWaitTeam ;; semDown playerRegistered) ;;
            r <- teamId_post_increment ;;
            semUp refereeWaitTeams ;;
            ret r
        else
          store (set_goalieStat id LATE) ;;
          saveState ;;
          ret 0) ;;
  semUp mutex ;;
  s <- load ;;
  if decide (status_of id s = Some WAITING_TEAM) then
    semDown goaliesWaitTeam ;;
    s' <- load ;;
    semUp playerRegistered ;;
    ret (teamId s')
  else
    ret r.

Definition waitReferee (id : nat) (team : Z) : M unit :=
  semDown mutex ;;
  store (set_goalieStat id (if team =? 1 then WAITING_START_1 else WAITING_START_2)) ;;
  saveState ;;
  semUp mutex ;;
  semDown playersWaitReferee ;;
  semUp playing.

Definition playUntilEnd (id : nat) (team : Z) : M unit :=
  semDown mutex ;;
  store (set_goalieStat id (if team =? 1 then PLAYING_1 else PLAYING_2)) ;;
  saveState ;;
  semUp mutex ;;
  semDown playersWaitEnd.

(** The life cycle of [main] (lines 116 to 120), once the process is attached
    to the semaphore set and to the shared region. *)
Definition main_life_cycle (n : nat) : M unit :=
  arrive n ;;
  team <- goalieConstituteTeam n ;;
  if team =? 0 then ret tt
  else waitReferee n team ;; playUntilEnd n team.

(** The four operations under one name. *)
Inductive operation : Type :=
| Arrive
| ConstituteTeam
| WaitReferee (team : Z)
| PlayUntilEnd (team : Z).

Definition perform (id : nat) (op : operation) : M unit :=
  match op with
  | Arrive => arrive id
  | ConstituteTeam => goalieConstituteTeam id ;; ret tt
  | WaitReferee team => waitReferee id team
  | PlayUntilEnd team => playUntilEnd id team
  end.

(** ** Reading a history *)

(** The events a process added between two of its states, the most recent
    first, and the same in the order in which they happened. *)
Definition emitted (p p' : process) : history :=
  take (length (log p') - length (log p)) (log p').

Definition trace (p p' : process) : list event := rev (emitted p p').

Definition is_sync (e : event) : bool :=
  match e with
  | Down _ | Up _ | Usleep => true
  | _ => false
  end.

Definition is_store (e : event) : bool :=
  match e with
  | Store _ _ => true
  | _ => false
  end.

(** The semaphore calls and pauses of a list of events. *)
Definition syncs (h : list event) : list event := List.filter is_sync h.

(** The writes of a list of events. *)
Definition writes (h : list event) : list event := List.filter is_store h.

(** The team identifiers claimed in [h]: for every write that changes
    [teamId], the value it found there. *)
Fixpoint claims (h : history) : list Z :=
  match h with
  | [] => []
  | Store b a :: h' =>
      if bool_decide (teamId a = teamId b) then claims h' else teamId b :: claims h'
  | _ :: h' => claims h'
  end.

(** The status of goalie [id] after each write of [h]. *)
Fixpoint statuses_written (id : nat) (h : list event) : list (option status) :=
  match h with
  | [] => []
  | Store _ a :: h' => status_of id a :: statuses_written id h'
  | _ :: h' => statuses_written id h'
  end.

(** The events of [n] rounds of the loop of the forming goalie. *)
Definition handshakes (n : nat) : history :=
  concat (replicate n [Down playerRegistered; Up playersWaitTeam]).

(** No wait on a semaphore other than the mutex happens with the mutex held. *)
Fixpoint never_waits_under_mutex (h : history) : bool :=
  match h with
  | [] => true
  | Down s :: h' =>
      (bool_decide (s = mutex) || negb (holds_mutex h')) && never_waits_under_mutex h'
  | _ :: h' => never_waits_under_mutex h'
  end.


(** The two halves of a reservation: [playersFree -= NUMTEAMPLAYERS] on a
    region in which both quotas are met, and [goaliesFree -= NUMTEAMGOALIES]
    right after it. *)
Definition reserves_players (b a : FULL_STAT) : Prop :=
  NUMTEAMPLAYERS <= playersFree b /\ NUMTEAMGOALIES <= goaliesFree b /\
  a = set_playersFree (playersFree b - NUMTEAMPLAYERS) b.

Definition reserves_goalies (h : history) (b a : FULL_STAT) : Prop :=
  exists b0 h0, h = Store b0 b :: h0 /\ reserves_players b0 b /\
    a = set_goaliesFree (goaliesFree b - NUMTEAMGOALIES) b.

(** Every write happens with the mutex held, and a write lowers a free
    counter only as one half of a reservation. *)
Fixpoint reserves_by_quota (h : history) : Prop :=
  match h with
  | [] => True
  | Store b a :: h' =>
      (holds_mutex h' = true /\
       ((playersFree b <= playersFree a /\ goaliesFree b <= goaliesFree a) \/
        reserves_players b a \/
        reserves_goalies h' b a)) /\
      reserves_by_quota h'
  | _ :: h' => reserves_by_quota h'
  end.

(** ** What is assumed of the rest of the system *)

(** No semaphore call fails. *)
Definition no_failure (o : oracle) : Prop :=
  forall h, sem_fails o h = false.

(** Nobody else writes the shared region while this process holds the mutex. *)
Definition respects_mutex (o : oracle) : Prop :=
  forall h s, holds_mutex h = true -> others o h s = s.

(** Nobody else writes the status entry of goalie [id]. *)
Definition keeps_status (id : nat) (o : oracle) : Prop :=
  forall h s, status_of id (others o h s) = status_of id s.

(** Nobody lowers [goaliesArrived]. *)
Definition arrivals_monotone (o : oracle) : Prop :=
  forall h s, goaliesArrived s <= goaliesArrived (others o h s).

(** The state of the region after lines 183 and 184, the test of line 186
    and the test of line 188 on it. *)
Definition registered (s : FULL_STAT) : FULL_STAT :=
  set_goaliesArrived (goaliesArrived s + 1) (set_goaliesFree (goaliesFree s + 1) s).

Definition late (s : FULL_STAT) : bool :=
  negb (goaliesArrived (registered s) <=? 2).

Definition quota_met (s : FULL_STAT) : bool :=
  negb ((playersFree (registered s) <? NUMTEAMPLAYERS)
        || (goaliesFree (registered s) <? NUMTEAMGOALIES)).

(** ** Several processes on one region *)

(** The oracle of a process that runs alone. *)
Definition quiet : oracle := mkOracle (fun _ => false) (fun _ s => s).

(** Modelled from the spec: the field players are not part of the sources.
    Section 4.2 has every entity increment its arrived and its free counter
    (step 1), and has the entity that finds both quotas met take both quotas,
    claim the next team identifier by post-increment and signal the referee
    (step 3, quota met). *)
Definition player_registers (s : FULL_STAT) : FULL_STAT :=
  set_playersFree (playersFree s + 1) (set_playersArrived (playersArrived s + 1) s).

Definition player_forms (s : FULL_STAT) : history :=
  if (NUMTEAMPLAYERS <=? playersFree s) && (NUMTEAMGOALIES <=? goaliesFree s) then
    let s1 := set_playersFree (playersFree s - NUMTEAMPLAYERS) s in
    let s2 := set_goaliesFree (goaliesFree s1 - NUMTEAMGOALIES) s1 in
    let s3 := set_teamId (teamId s2 + 1) s2 in
    [Up refereeWaitTeams; Store s2 s3; Store s1 s2; Store s s1]
  else [].

(** A step of the system is the critical region of one process: all the writes
    of the goalie lie between its [semDown] and its [semUp] of the mutex, so
    an operation of a goalie is run alone from the region it finds. *)
Inductive step : Type :=
| Goalie (id : nat) (op : operation)
| PlayerRegisters
| PlayerForms.

Record system : Type := mkSystem {
  region : FULL_STAT;
  past : history
}.

(** The region a list of events leaves: the result of its last write. *)
Definition region_after (h : history) (s : FULL_STAT) : FULL_STAT :=
  match writes h with
  | Store _ a :: _ => a
  | _ => s
  end.

Definition sys_step (w : system) (x : step) : system :=
  match x with
  | Goalie id op =>
      let p' := snd (perform id op quiet (mkProcess (region w) [])) in
      mkSystem (shm p') (log p' ++ past w)
  | PlayerRegisters =>
      let s' := player_registers (region w) in
      mkSystem s' (Store (region w) s' :: past w)
  | PlayerForms =>
      let h := player_forms (region w) in
      mkSystem (region_after h (region w)) (h ++ past w)
  end.

Definition run (xs : list step) (w : system) : system :=
  fold_left sys_step xs w.

(** The number of goalies and of players that registered in a list of steps. *)
Definition is_constitute (x : step) : bool :=
  match x with
  | Goalie _ ConstituteTeam => true
  | _ => false
  end.

Definition is_player_registers (x : step) : bool :=
  match x with
  | PlayerRegisters => true
  | _ => false
  end.

Definition goalies_registered (xs : list step) : Z :=
  Z.of_nat (length (List.filter is_constitute xs)).

Definition players_registered (xs : list step) : Z :=
  Z.of_nat (length (List.filter is_player_registers xs)).

(** The regions found and left by the writes of a history are never in debt. *)
Definition solvent (s : FULL_STAT) : Prop :=
  0 <= playersFree s /\ 0 <= goaliesFree s.

Fixpoint never_in_debt (h : history) : Prop :=
  match h with
  | [] => True
  | Store b a :: h' => (solvent b /\ solvent a) /\ never_in_debt h'
  | _ :: h' => never_in_debt h'
  end.

(** ** Running a process *)

(** [wp c o p Q]: the run of [c] from [p] against [o] ends in a result and a
    process that [Q] accepts. *)
Definition wp {A : Type} (c : M A) (o : oracle) (p : process)
    (Q : outcome A -> process -> Prop) : Prop :=
  Q (fst (c o p)) (snd (c o p)).

(** ** What the operations are expected to do *)

(** Predicates on the writes of a list of events. *)
Definition store_is (P : FULL_STAT -> FULL_STAT -> Prop) (e : event) : Prop :=
  match e with
  | Store b a => P b a
  | _ => True
  end.

(** A write of the status entry of goalie [id], and what it leaves alone. *)
Definition writes_status_only (id : nat) (v : status) (b a : FULL_STAT) : Prop :=
  a = set_goalieStat id v b /\
  playersArrived a = playersArrived b /\ goaliesArrived a = goaliesArrived b /\
  playersFree a = playersFree b /\ goaliesFree a = goaliesFree b /\
  teamId a = teamId b /\ playerStat (st a) = playerStat (st b) /\
  forall j, j <> id -> status_of j a = status_of j b.

(** The events of a semaphore round of the forming goalie. *)
Definition is_handshake (e : event) : Prop :=
  e = Up playersWaitTeam \/ e = Down playerRegistered.

(** Lines 176 to 186 of [goalieConstituteTeam] on region [s], in the order in
    which they happen. *)
Definition entry_script (s : FULL_STAT) : list event :=
  let s1 := set_goaliesFree (goaliesFree s + 1) s in
  [Down mutex; Store s s1; Store s1 (registered s); Load (registered s)].

(** The late goalie: lines 222 to 227. *)
Definition late_region (id : nat) (s : FULL_STAT) : FULL_STAT :=
  set_goalieStat id LATE (registered s).

Definition late_script (id : nat) (s : FULL_STAT) : list event :=
  entry_script s ++
  [Store (registered s) (late_region id s); SaveState (late_region id s); Up mutex].

(** The goalie that finds a quota unmet: lines 188 to 191 and 227. *)
Definition waiting_region (id : nat) (s : FULL_STAT) : FULL_STAT :=
  set_goalieStat id WAITING_TEAM (registered s).

Definition waiting_script (id : nat) (s : FULL_STAT) : list event :=
  entry_script s ++
  [Load (registered s);
   Store (registered s) (waiting_region id s); SaveState (waiting_region id s);
   Up mutex].

(** The goalie that finds both quotas met: lines 188 and 194 to 227. *)
Definition forming_region (id : nat) (s : FULL_STAT) : FULL_STAT :=
  set_goalieStat id FORMING_TEAM (registered s).

Definition reserved_region (id : nat) (s : FULL_STAT) : FULL_STAT :=
  let sP := set_playersFree (playersFree (forming_region id s) - NUMTEAMPLAYERS)
                            (forming_region id s) in
  set_goaliesFree (goaliesFree sP - NUMTEAMGOALIES) sP.

Definition formed_region (id : nat) (s : FULL_STAT) : FULL_STAT :=
  set_teamId (teamId (reserved_region id s) + 1) (reserved_region id s).

Definition forming_script (id : nat) (s : FULL_STAT) : list event :=
  let sF := forming_region id s in
  let sP := set_playersFree (playersFree sF - NUMTEAMPLAYERS) sF in
  entry_script s ++
  [Load (registered s); Store (registered s) sF; SaveState sF;
   Store sF sP; Store sP (reserved_region id s)] ++
  concat (replicate (Z.to_nat NUMTEAMPLAYERS)
                    [Up playersWaitTeam; Down playerRegistered]) ++
  [Store (reserved_region id s) (formed_region id s);
   Up refereeWaitTeams; Up mutex].

(** Whether operation [op] takes the forming branch on region [s]. *)
Definition forms (op : operation) (s : FULL_STAT) : bool :=
  match op with
  | ConstituteTeam => negb (late s) && quota_met s
  | _ => false
  end.

(** The number of signals to the referee that a team is ready. *)
Fixpoint signals (h : list event) : nat :=
  match h with
  | [] => O
  | Up refereeWaitTeams :: h' => S (signals h')
  | _ :: h' => signals h'
  end.

(** What one operation of a goalie adds to the team counter and to the
    counters of arrived goalies. *)
Definition claimed (op : operation) (s : FULL_STAT) : Z :=
  if forms op s then 1 else 0.

Definition enrolled (op : operation) : Z :=
  match op with
  | ConstituteTeam => 1
  | _ => 0
  end.

(** The team identifiers a step of the system claims on region [s]. *)
Definition step_claimed (x : step) (s : FULL_STAT) : Z :=
  match x with
  | Goalie _ op => claimed op s
  | PlayerRegisters => 0
  | PlayerForms =>
      if (NUMTEAMPLAYERS <=? playersFree s) && (NUMTEAMGOALIES <=? goaliesFree s)
      then 1 else 0
  end.


(** ** Regions and oracles used in the examples *)

(** A region in which nobody has arrived yet: three goalies, ten players and
    the team counter at 1, the identifier of the first team in the header of
    [goalieConstituteTeam]. *)
Definition fresh_region : FULL_STAT :=
  mkFULL_STAT (mkSTAT (replicate 3 ARRIVING) (replicate 10 ARRIVING)) 0 0 0 0 1.

(** Two players are free and no goalie has arrived. *)
Definition players_ready : FULL_STAT :=
  set_playersFree 2 (set_playersArrived 2 fresh_region).

(** Two goalies went through [goalieConstituteTeam] before any player. *)
Definition two_arrived : FULL_STAT :=
  set_goaliesFree 2 (set_goaliesArrived 2 fresh_region).

(** While the process waits on [goaliesWaitTeam] without the mutex, another
    team is completed: its Arbiter increments [teamId]. *)
Definition another_team_meanwhile : oracle :=
  mkOracle (fun _ => false)
           (fun h s =>
              if holds_mutex h then s
              else match h with
                   | Down goaliesWaitTeam :: _ => set_teamId (teamId s + 1) s
                   | _ => s
                   end).

(** Four players and three goalies: the first goalie forms team 1, a player
    forms team 2 with the second goalie, and the third goalie comes after. *)
Definition full_house : list step :=
  [PlayerRegisters; PlayerRegisters; Goalie 0 ConstituteTeam;
   PlayerRegisters; Goalie 1 ConstituteTeam; PlayerRegisters; PlayerForms;
   Goalie 2 ConstituteTeam].


(** The writes of an operation of goalie [id] that finds region [s] when it
    takes the mutex, the most recent first. *)
Definition critical_writes (id : nat) (op : operation) (s : FULL_STAT) : history :=
  match op with
  | Arrive => [Store s (set_goalieStat id ARRIVING s)]
  | ConstituteTeam =>
      writes (rev (if late s then late_script id s
                   else if quota_met s then forming_script id s
                   else waiting_script id s))
  | WaitReferee team =>
      [Store s (set_goalieStat id (if team =? 1 then WAITING_START_1
                                   else WAITING_START_2) s)]
  | PlayUntilEnd team =>
      [Store s (set_goalieStat id (if team =? 1 then PLAYING_1 else PLAYING_2) s)]
  end.


(** ** More ways to read a history *)

(** The semaphore calls the goalie makes: it waits on the mutex, on
    [goaliesWaitTeam], [playerRegistered], [playersWaitReferee] and
    [playersWaitEnd], and it signals the mutex, [playersWaitTeam],
    [playerRegistered], [refereeWaitTeams] and [playing]. *)
Definition goalie_call (e : event) : bool :=
  match e with
  | Down mutex | Down goaliesWaitTeam | Down playerRegistered
  | Down playersWaitReferee | Down playersWaitEnd => true
  | Down _ => false
  | Up mutex | Up playersWaitTeam | Up playerRegistered
  | Up refereeWaitTeams | Up playing => true
  | Up _ => false
  | _ => true
  end.

(** The mutex is taken only when it is not held and given back only when it
    is held. *)
Fixpoint mutex_bracketed (h : history) : bool :=
  match h with
  | [] => true
  | Down mutex :: h' => negb (holds_mutex h') && mutex_bracketed h'
  | Up mutex :: h' => holds_mutex h' && mutex_bracketed h'
  | _ :: h' => mutex_bracketed h'
  end.

(** What a write of goalie [id] leaves alone whatever the operation: the
    fields of the players and the entries of the other goalies. *)
Definition keeps_the_others (id : nat) (b a : FULL_STAT) : Prop :=
  playersArrived a = playersArrived b /\
  playerStat (st a) = playerStat (st b) /\
  length (goalieStat (st a)) = length (goalieStat (st b)) /\
  forall j, j <> id -> status_of j a = status_of j b.

(** A write moves [goaliesArrived] and [teamId] by nothing or by one. *)
Definition counts_up (b a : FULL_STAT) : Prop :=
  (goaliesArrived a = goaliesArrived b \/ goaliesArrived a = goaliesArrived b + 1) /\
  (teamId a = teamId b \/ teamId a = teamId b + 1).

(** The writes of [h] that change [goaliesArrived]. *)
Fixpoint arrivals (h : list event) : list event :=
  match h with
  | [] => []
  | Store b a :: h' =>
      if bool_decide (goaliesArrived a = goaliesArrived b) then arrivals h'
      else Store b a :: arrivals h'
  | _ :: h' => arrivals h'
  end.


(** ** The main program *)

(** The number of goalies (probConst.h, which is not part of the sources). *)
Variable NUMGOALIES : Z.

(** What [main] is started with and what the calls it makes before the life
    cycle answer: the number of arguments, the value [strtol] finds in
    [argv[1]] and whether it leaves text unread ([*tinp != '\0']), the length
    of the name of the log file [argv[2]], and whether [ftok], [semConnect],
    [shmemConnect], [shmemAttach] and [shmemDettach] return -1. *)
Record launch : Type := mkLaunch {
  argc : Z;
  strtol_value : Z;
  strtol_unread : bool;
  logfile_length : nat;
  ftok_fails : bool;
  semConnect_fails : bool;
  shmemConnect_fails : bool;
  shmemAttach_fails : bool;
  shmemDettach_fails : bool
}.

(** How the process ends: with one of the two exit statuses, or in a write
    outside an array ([nFic] or [goalieStat]), to which C gives no meaning. *)
Inductive ending : Type :=
| EXIT_SUCCESS
| EXIT_FAILURE
| UNDEFINED.

(** [n = (unsigned int) strtol (...)] with [int n]: the value modulo 2^32,
    read back as a signed 32-bit integer (the conversion of gcc and clang). *)
Definition goalie_number (v : Z) : Z :=
  let u := v mod 2 ^ 32 in
  if u <? 2 ^ 31 then u else u - 2 ^ 32.

(** [main], lines 64 to 129.  [strcpy (nFic, argv[2])] fills [char nFic[51]]
    and [arrive (n)] writes [goalieStat[n]] once it has the mutex. *)
Definition main (a : launch) (o : oracle) (p : process) : ending * process :=
  if negb (argc a =? 4) then (EXIT_FAILURE, p)
  else
    let n := goalie_number (strtol_value a) in
    if strtol_unread a || (NUMGOALIES <=? n) then (EXIT_FAILURE, p)
    else if (50 <? logfile_length a)%nat then (UNDEFINED, p)
    else if ftok_fails a then (EXIT_FAILURE, p)
    else if semConnect_fails a then (EXIT_FAILURE, p)
    else if shmemConnect_fails a then (EXIT_FAILURE, p)
    else if shmemAttach_fails a then (EXIT_FAILURE, p)
    else if n <? 0 then
      match semDown mutex o p with
      | (Returned _, p') => (UNDEFINED, p')
      | (Exited, p') => (EXIT_FAILURE, p')
      end
    else
      match main_life_cycle (Z.to_nat n) o p with
      | (Returned _, p') =>
          if shmemDettach_fails a then (EXIT_FAILURE, p') else (EXIT_SUCCESS, p')
      | (Exited, p') => (EXIT_FAILURE, p')
      end.

(** Where the life cycle of a goalie ends, by what
    [goalieConstituteTeam] found on region [s] and returned. *)
Definition last_status (s : FULL_STAT) (team : Z) : status :=
  if team =? 0 then
    if late s then LATE
    else if quota_met s then FORMING_TEAM else WAITING_TEAM
  else if team =? 1 then PLAYING_1 else PLAYING_2.

(** ** Launches and an oracle used in the examples *)

(** Goalie 0 of three, started as it should be. *)
Definition first_goalie_launch : launch :=
  mkLaunch 4 0 false 10 false false false false false.

(** The same with [-1] for an identification. *)
Definition minus_one_launch : launch :=
  mkLaunch 4 (-1) false 10 false false false false false.

(** Every semaphore call made after seven events of the process fails. *)
Definition fails_after_seven : oracle :=
  mkOracle (fun h => (7 <=? length h)%nat) (fun _ s => s).


(** ** The moves of a formation *)

(** The semaphore calls and the pauses of a list of events, with the writes
    that change [teamId]; reads, other writes and saved states are left out. *)
Fixpoint formation_moves (h : list event) : list event :=
  match h with
  | [] => []
  | Store b a :: h' =>
      if bool_decide (teamId a = teamId b) then formation_moves h'
      else Store b a :: formation_moves h'
  | Load _ :: h' => formation_moves h'
  | SaveState _ :: h' => formation_moves h'
  | e :: h' => e :: formation_moves h'
  end.

(** The moves of lines 176 to 227 on the forming branch, in the order in which
    they happen, when [teamId++] of line 215 finds region [b]. *)
Definition forming_moves (b : FULL_STAT) : list event :=
  [Down mutex]
  ++ concat (replicate (Z.to_nat NUMTEAMPLAYERS)
                       [Up playersWaitTeam; Down playerRegistered])
  ++ [Store b (set_teamId (teamId b + 1) b); Up refereeWaitTeams; Up mutex].




(** ** Rules for running a process *)

Lemma wp_ret {A : Type} (a : A) o p (Q : outcome A -> process -> Prop) :
  Q (Returned a) p -> wp (ret a) o p Q.
Proof. exact (fun H => H). Qed.

Lemma wp_bind {A B : Type} (c : M A) (k : A -> M B) o p
    (Q : outcome B -> process -> Prop) :
  wp c o p (fun r p' =>
              match r with
              | Returned a => wp (k a) o p' Q
              | Exited => Q Exited p'
              end) ->
  wp (bind c k) o p Q.
Proof.
  unfold wp, bind. destruct (c o p) as [[a|] p']; simpl; auto.
Qed.

Lemma wp_mono {A : Type} (c : M A) o p (Q Q' : outcome A -> process -> Prop) :
  wp c o p Q -> (forall r p', Q r p' -> Q' r p') -> wp c o p Q'.
Proof. unfold wp. auto. Qed.

Lemma wp_semDown x o s h (Q : outcome unit -> process -> Prop) :
  (sem_fails o h = true -> Q Exited (mkProcess s h)) ->
  (sem_fails o h = false ->
   forall s', s' = others o (Down x :: h) s ->
              Q (Returned tt) (mkProcess s' (Down x :: h))) ->
  wp (semDown x) o (mkProcess s h) Q.
Proof.
  unfold wp, semDown. simpl. destruct (sem_fails o h); simpl; auto.
Qed.

Lemma wp_semUp x o s h (Q : outcome unit -> process -> Prop) :
  (sem_fails o h = true -> Q Exited (mkProcess s h)) ->
  (sem_fails o h = false ->
   forall s', s' = others o (Up x :: h) s ->
              Q (Returned tt) (mkProcess s' (Up x :: h))) ->
  wp (semUp x) o (mkProcess s h) Q.
Proof.
  unfold wp, semUp. simpl. destruct (sem_fails o h); simpl; auto.
Qed.

Lemma wp_usleep o s h (Q : outcome unit -> process -> Prop) :
  (forall s', s' = others o (Usleep :: h) s ->
              Q (Returned tt) (mkProcess s' (Usleep :: h))) ->
  wp usleep o (mkProcess s h) Q.
Proof. unfold wp, usleep. simpl. auto. Qed.

Lemma wp_load o s h (Q : outcome FULL_STAT -> process -> Prop) :
  Q (Returned s) (mkProcess s (Load s :: h)) -> wp load o (mkProcess s h) Q.
Proof. exact (fun H => H). Qed.

Lemma wp_store f o s h (Q : outcome unit -> process -> Prop) :
  Q (Returned tt) (mkProcess (f s) (Store s (f s) :: h)) ->
  wp (store f) o (mkProcess s h) Q.
Proof. exact (fun H => H). Qed.

Lemma wp_teamId_post_increment o s h (Q : outcome Z -> process -> Prop) :
  Q (Returned (teamId s))
    (mkProcess (set_teamId (teamId s + 1) s)
               (Store s (set_teamId (teamId s + 1) s) :: h)) ->
  wp teamId_post_increment o (mkProcess s h) Q.
Proof. exact (fun H => H). Qed.

Lemma wp_saveState o s h (Q : outcome unit -> process -> Prop) :
  Q (Returned tt) (mkProcess s (SaveState s :: h)) ->
  wp saveState o (mkProcess s h) Q.
Proof. exact (fun H => H). Qed.

(** A loop keeps what each round keeps; [I k] holds before round [k]. *)
Lemma wp_for_loop (I : nat -> process -> Prop) n k body o p
    (Q : outcome unit -> process -> Prop) :
  I k p ->
  (forall j q, I j q ->
     wp body o q (fun r q' =>
                    match r with
                    | Returned _ => I (S j) q'
                    | Exited => Q Exited q'
                    end)) ->
  (forall q, I (k + n)%nat q -> Q (Returned tt) q) ->
  wp (for_loop n body) o p Q.
Proof.
  revert k p. induction n as [|n IH]; intros k p Hk Hbody Hend.
  - apply wp_ret. apply Hend. now rewrite Nat.add_0_r.
  - simpl. apply wp_bind. eapply wp_mono; [apply (Hbody _ _ Hk)|].
    intros [[]|] q' Hq'; [|exact Hq'].
    apply (IH (S k)); auto.
    intros q Hq. apply Hend. now rewrite Nat.add_succ_r.
Qed.

Lemma emitted_app p p' ev : log p' = ev ++ log p -> emitted p p' = ev.
Proof.
  unfold emitted. intros ->.
  rewrite length_app, Nat.add_sub. apply take_app_length.
Qed.

Lemma holds_mutex_handshakes n h :
  holds_mutex (handshakes n ++ h) = holds_mutex h.
Proof.
  unfold handshakes. induction n as [|n IH]; simpl; auto.
Qed.

(** ** Stepping through an operation *)

(** Regions are compared as records of their fields. *)
Ltac fields :=
  cbn [set_goalieStat set_playersArrived set_goaliesArrived set_playersFree
       set_goaliesFree set_teamId st goalieStat playerStat playersArrived
       goaliesArrived playersFree goaliesFree teamId registered late_region
       waiting_region forming_region reserved_region formed_region] in *.

Ltac wp_prim :=
  lazymatch goal with
  | |- wp (bind _ _) _ _ _ => apply wp_bind
  | |- wp (ret _) _ _ _ => apply wp_ret
  | |- wp (semDown _) _ _ _ =>
      apply wp_semDown; [intros ?Hfail | intros ?Hok ?s' ?Hs']
  | |- wp (semUp _) _ _ _ =>
      apply wp_semUp; [intros ?Hfail | intros ?Hok ?s' ?Hs']
  | |- wp usleep _ _ _ => apply wp_usleep; intros ?s' ?Hs'
  | |- wp load _ _ _ => apply wp_load
  | |- wp (store _) _ _ _ => apply wp_store
  | |- wp saveState _ _ _ => apply wp_saveState
  | |- wp teamId_post_increment _ _ _ => apply wp_teamId_post_increment
  end; cbn beta iota; fields.

Ltac wp_run := repeat wp_prim.

(** A failing call is excluded by [no_failure]; what the others do while the
    mutex is held is nothing by [respects_mutex]. *)
Ltac no_fail Hnf :=
  match goal with
  | Hfail : sem_fails _ _ = true |- _ => rewrite Hnf in Hfail; discriminate Hfail
  end.

Ltac under_mutex Hrm :=
  match goal with
  | Hs : ?s' = others _ ?h ?s |- _ =>
      rewrite (Hrm h s) in Hs
        by (simpl; rewrite ?holds_mutex_handshakes; reflexivity);
      subst s'
  end.

Ltac wp_calm Hnf Hrm :=
  repeat (wp_prim; try no_fail Hnf; try under_mutex Hrm;
          repeat match goal with
                 | H : sem_fails _ _ = false |- _ => clear H
                 end).

(** The events added to [l] in [h], when [h] extends [l]. *)
Ltac added h l :=
  lazymatch h with
  | l => constr:(@nil event)
  | ?a ++ l => constr:(a)
  | ?e :: ?h' => let r := added h' l in constr:(e :: r)
  | ?a ++ ?h' => let r := added h' l in constr:(a ++ r)
  end.

Ltac emitted_simpl :=
  repeat match goal with
  | |- context [emitted (mkProcess ?s ?l) (mkProcess ?s' ?h)] =>
      let ev := added h l in
      rewrite (emitted_app (mkProcess s l) (mkProcess s' h) ev)
        by (simpl; rewrite <- ?app_assoc; reflexivity)
  end.

Ltac Forall_list :=
  repeat match goal with
  | |- Forall _ (_ :: _) => constructor
  | |- Forall _ [] => constructor
  end.

Lemma set_goalieStat_frame id v s : writes_status_only id v s (set_goalieStat id v s).
Proof.
  unfold writes_status_only, status_of. simpl. repeat split; auto.
  intros j Hj. now apply list_lookup_insert_ne.
Qed.

Lemma status_of_set_goalieStat id v s :
  (id < length (goalieStat (st s)))%nat ->
  status_of id (set_goalieStat id v s) = Some v.
Proof. intros H. unfold status_of. simpl. now apply list_lookup_insert_eq. Qed.

Lemma status_of_set_goalieStat_out id v s :
  status_of id s = None -> status_of id (set_goalieStat id v s) = None.
Proof.
  unfold status_of. simpl. intros H.
  apply lookup_ge_None. rewrite length_insert. now apply lookup_ge_None.
Qed.

(** A status just written is what the entry holds, if the entry exists. *)
Lemma status_of_written id v s :
  status_of id (set_goalieStat id v s) = Some v \/
  status_of id (set_goalieStat id v s) = None.
Proof.
  destruct (status_of id s) eqn:E.
  - left. apply status_of_set_goalieStat. unfold status_of in E.
    now apply lookup_lt_Some in E.
  - right. now apply status_of_set_goalieStat_out.
Qed.

(** The loop of the forming goalie, when nothing fails and the mutex is held. *)
Lemma wp_handshake_loop n o s l (Q : outcome unit -> process -> Prop) :
  no_failure o -> respects_mutex o -> holds_mutex l = true ->
  Q (Returned tt) (mkProcess s (handshakes n ++ l)) ->
  wp (for_loop n (semUp playersWaitTeam ;; semDown playerRegistered)) o
     (mkProcess s l) Q.
Proof.
  intros Hnf Hrm Hl HQ.
  apply (wp_for_loop (fun j q => q = mkProcess s (handshakes j ++ l)) n 0).
  - reflexivity.
  - intros j q ->. wp_prim. wp_prim; [no_fail Hnf|].
    rewrite (Hrm _ s) in Hs' by (simpl; now rewrite holds_mutex_handshakes).
    subst s'. wp_prim; [no_fail Hnf|].
    rewrite (Hrm _ s) in Hs' by (simpl; now rewrite holds_mutex_handshakes).
    subst s'. reflexivity.
  - intros q ->. exact HQ.
Qed.

(** The same loop against any oracle adds semaphore events only. *)
Lemma wp_handshake_loop_any n o s l (Q : outcome unit -> process -> Prop) :
  (forall s' ev, Forall is_handshake ev -> Q Exited (mkProcess s' (ev ++ l))) ->
  (forall s' ev, Forall is_handshake ev -> Q (Returned tt) (mkProcess s' (ev ++ l))) ->
  wp (for_loop n (semUp playersWaitTeam ;; semDown playerRegistered)) o
     (mkProcess s l) Q.
Proof.
  intros HE HR.
  apply (wp_for_loop
           (fun _ q => exists s' ev, Forall is_handshake ev /\ q = mkProcess s' (ev ++ l))
           n 0).
  - exists s, []. split; [constructor | reflexivity].
  - intros j q (s' & ev & Hev & ->). wp_prim. wp_prim.
    + now apply HE.
    + wp_prim.
      * apply (HE _ (Up playersWaitTeam :: ev)). constructor; [now left | exact Hev].
      * exists s'1, (Down playerRegistered :: Up playersWaitTeam :: ev).
        split; [|reflexivity].
        constructor; [now right|]. constructor; [now left | exact Hev].
  - intros q (s' & ev & Hev & ->). now apply HR.
Qed.

Lemma holds_mutex_handshake_events ev h :
  Forall is_handshake ev -> holds_mutex (ev ++ h) = holds_mutex h.
Proof.
  induction 1 as [|e ev [-> | ->] _ IH]; simpl; auto.
Qed.

Lemma rev_handshakes n :
  rev (handshakes n)
  = concat (replicate n [Up playersWaitTeam; Down playerRegistered]).
Proof.
  unfold handshakes. induction n as [|n IH]; [reflexivity|].
  change (replicate (S n) [Down playerRegistered; Up playersWaitTeam])
    with ([Down playerRegistered; Up playersWaitTeam]
            :: replicate n [Down playerRegistered; Up playersWaitTeam]).
  rewrite concat_cons, rev_app_distr, IH. simpl rev.
  clear IH. induction n as [|n IH]; [reflexivity|].
  simpl. simpl in IH. now rewrite IH.
Qed.

(** ** The three ways through [goalieConstituteTeam] *)

Lemma wp_exact {A : Type} (c : M A) o p r p' :
  wp c o p (fun r0 p0 => r0 = r /\ p0 = p') -> c o p = (r, p').
Proof.
  unfold wp. destruct (c o p) as [r0 p0]. simpl. now intros [-> ->].
Qed.

Lemma written_status_is id v v' (l : list status) :
  <[id := v]> l !! id = Some v' -> v' = v.
Proof.
  intros H. apply list_lookup_insert_Some in H as [(_ & -> & _) | (Hne & _)];
    [reflexivity | now destruct Hne].
Qed.

Lemma keeps_status_not_waiting id o h v s :
  keeps_status id o -> v <> WAITING_TEAM ->
  status_of id (others o h (set_goalieStat id v s)) <> Some WAITING_TEAM.
Proof.
  intros Hks Hv. rewrite Hks.
  destruct (status_of_written id v s) as [-> | ->]; congruence.
Qed.

Lemma constitute_late id o s l :
  no_failure o -> respects_mutex o -> keeps_status id o -> late s = true ->
  let w := others o (rev (late_script id s) ++ l) (late_region id s) in
  goalieConstituteTeam id o (mkProcess s l)
  = (Returned 0, mkProcess w (Load w :: rev (late_script id s) ++ l)).
Proof.
  intros Hnf Hrm Hks Hlate w.
  apply (wp_exact (goalieConstituteTeam id)).
  unfold late in Hlate. fields. apply negb_true_iff in Hlate.
  unfold goalieConstituteTeam. wp_calm Hnf Hrm.
  rewrite Hlate. wp_calm Hnf Hrm.
  destruct (decide _) as [Hd|Hd].
  - subst s'. now apply keeps_status_not_waiting in Hd.
  - wp_prim. subst s'. split; reflexivity.
Qed.

Lemma constitute_waiting id o s l :
  no_failure o -> respects_mutex o -> keeps_status id o ->
  (id < length (goalieStat (st s)))%nat ->
  late s = false -> quota_met s = false ->
  let h1 := rev (waiting_script id s) ++ l in
  let w1 := others o h1 (waiting_region id s) in
  let h2 := Down goaliesWaitTeam :: Load w1 :: h1 in
  let w2 := others o h2 w1 in
  let h3 := Up playerRegistered :: Load w2 :: h2 in
  goalieConstituteTeam id o (mkProcess s l)
  = (Returned (teamId w2), mkProcess (others o h3 w2) h3).
Proof.
  intros Hnf Hrm Hks Hid Hlate Hq h1 w1 h2 w2 h3.
  apply (wp_exact (goalieConstituteTeam id)).
  unfold late in Hlate. fields. apply negb_false_iff in Hlate.
  unfold quota_met in Hq. fields. apply negb_false_iff in Hq.
  unfold goalieConstituteTeam. wp_calm Hnf Hrm.
  rewrite Hlate. wp_calm Hnf Hrm.
  rewrite Hq. wp_calm Hnf Hrm.
  destruct (decide _) as [Hd|Hd].
  - wp_calm Hnf Hrm. subst. split; reflexivity.
  - exfalso. apply Hd. subst s'. rewrite Hks.
    now apply status_of_set_goalieStat.
Qed.

Lemma rev_forming_script id s :
  rev (forming_script id s)
  = Up mutex :: Up refereeWaitTeams
      :: Store (reserved_region id s) (formed_region id s)
      :: handshakes (Z.to_nat NUMTEAMPLAYERS)
      ++ [Store (set_playersFree (playersFree (forming_region id s) - NUMTEAMPLAYERS)
                                 (forming_region id s))
                (reserved_region id s);
          Store (forming_region id s)
                (set_playersFree (playersFree (forming_region id s) - NUMTEAMPLAYERS)
                                 (forming_region id s));
          SaveState (forming_region id s);
          Store (registered s) (forming_region id s);
          Load (registered s); Load (registered s);
          Store (set_goaliesFree (goaliesFree s + 1) s) (registered s);
          Store s (set_goaliesFree (goaliesFree s + 1) s);
          Down mutex].
Proof.
  unfold forming_script, entry_script.
  rewrite !rev_app_distr, <- rev_handshakes, rev_involutive. simpl.
  now rewrite <- !app_assoc.
Qed.

Lemma constitute_forming id o s l :
  no_failure o -> respects_mutex o -> keeps_status id o ->
  late s = false -> quota_met s = true ->
  let w := others o (rev (forming_script id s) ++ l) (formed_region id s) in
  goalieConstituteTeam id o (mkProcess s l)
  = (Returned (teamId s), mkProcess w (Load w :: rev (forming_script id s) ++ l)).
Proof.
  intros Hnf Hrm Hks Hlate Hq w.
  apply (wp_exact (goalieConstituteTeam id)).
  assert (Hscript : Up mutex :: Up refereeWaitTeams
      :: Store (reserved_region id s) (formed_region id s)
      :: handshakes (Z.to_nat NUMTEAMPLAYERS)
      ++ Store (set_playersFree (playersFree (forming_region id s) - NUMTEAMPLAYERS)
                                (forming_region id s))
               (reserved_region id s)
      :: Store (forming_region id s)
               (set_playersFree (playersFree (forming_region id s) - NUMTEAMPLAYERS)
                                (forming_region id s))
      :: SaveState (forming_region id s)
      :: Store (registered s) (forming_region id s)
      :: Load (registered s) :: Load (registered s)
      :: Store (set_goaliesFree (goaliesFree s + 1) s) (registered s)
      :: Store s (set_goaliesFree (goaliesFree s + 1) s)
      :: Down mutex :: l = rev (forming_script id s) ++ l).
  { rewrite rev_forming_script. simpl. now rewrite <- app_assoc. }
  subst w. rewrite <- Hscript. clear Hscript.
  unfold late in Hlate. fields. apply negb_false_iff in Hlate.
  unfold quota_met in Hq. fields. apply negb_true_iff in Hq.
  unfold goalieConstituteTeam. wp_calm Hnf Hrm.
  rewrite Hlate. wp_calm Hnf Hrm.
  rewrite Hq. wp_calm Hnf Hrm.
  apply wp_handshake_loop; [assumption..|reflexivity|].
  cbn beta iota. wp_calm Hnf Hrm.
  destruct (decide _) as [Hd|Hd].
  - exfalso. subst s'. rewrite Hks in Hd. unfold status_of in Hd. simpl in Hd.
    apply written_status_is in Hd. discriminate Hd.
  - wp_prim. subst s'. split; reflexivity.
Qed.

(** ** Discipline of the writes *)

Lemma reserves_by_quota_handshake_events ev h :
  Forall is_handshake ev -> reserves_by_quota h -> reserves_by_quota (ev ++ h).
Proof.
  induction 1 as [|e ev [-> | ->] _ IH]; simpl; auto.
Qed.

Ltac wp_until tac := repeat (wp_prim; try (solve [tac])).

Ltac reservation :=
  repeat match goal with
  | H : (_ <=? _) = true |- _ => apply Z.leb_le in H
  | H : (_ <=? _) = false |- _ => apply Z.leb_gt in H
  | H : (_ || _) = false |- _ => apply orb_false_iff in H; destruct H
  | H : (_ <? _) = false |- _ => apply Z.ltb_ge in H
  end.

(** Claim C7. The free counters [goaliesFree] and [playersFree] fall only in the
    reservation of [goalieConstituteTeam]: every write of every operation of
    the goalie happens with the mutex held, and a write that lowers a free
    counter is [playersFree -= NUMTEAMPLAYERS] on a region in which
    [playersFree >= NUMTEAMPLAYERS] and [goaliesFree >= NUMTEAMGOALIES], or
    the [goaliesFree -= NUMTEAMGOALIES] that follows it at once.  This holds
    of the history of a process after any operation, against any behaviour
    of the other processes and of the semaphore calls, if it held before. *)
Theorem free_counters_fall_by_reservation id op o p :
  reserves_by_quota (log p) ->
  reserves_by_quota (log (snd (perform id op o p))).
Proof.
  destruct p as [s l]. cbn [log]. intros Hl.
  change (wp (perform id op) o (mkProcess s l)
            (fun _ p' => reserves_by_quota (log p'))).
  destruct op; unfold perform, arrive, goalieConstituteTeam, waitReferee, playUntilEnd.
  - wp_run; simpl; intuition lia.
  - wp_until ltac:(simpl; intuition lia).
    destruct (_ <=? 2) eqn:Hlate.
    + wp_until ltac:(simpl; intuition lia).
      destruct (_ || _) eqn:Hq.
      * wp_run; try destruct (decide _); wp_run; simpl; intuition lia.
      * reservation.
        wp_until ltac:(simpl; intuition lia).
        match goal with
        | |- wp _ _ (mkProcess _ ?h) _ => assert (Hres : reserves_by_quota h)
        end.
        { simpl. repeat split; auto; try (left; simpl; lia).
          - right; right. eexists _, _. split; [reflexivity|].
            unfold reserves_players. simpl. repeat split; auto; lia.
          - right; left. unfold reserves_players. simpl. repeat split; auto; lia. }
        apply wp_handshake_loop_any; intros s'' ev Hev; cbn beta iota.
        { now apply reserves_by_quota_handshake_events. }
        wp_prim. wp_prim. wp_prim.
        match goal with
        | |- wp _ _ (mkProcess _ ?h) _ => assert (Hfin : reserves_by_quota h)
        end.
        { simpl. rewrite holds_mutex_handshake_events by assumption. simpl.
          repeat split; [left; simpl; lia|].
          now apply reserves_by_quota_handshake_events. }
        wp_until ltac:(exact Hfin).
        destruct (decide _); wp_until ltac:(exact Hfin).
    + wp_run; try destruct (decide _); wp_run; simpl; intuition lia.
  - wp_run; simpl; intuition lia.
  - wp_run; simpl; intuition lia.
Qed.


Ltac settle_oracle :=
  repeat match goal with
  | H : sem_fails ?o ?l = _ |- context [sem_fails ?o ?l] => rewrite H
  | H : ?s' = others _ _ _ |- _ => subst s'
  end.

(** Claim C10. [waitReferee] and [playUntilEnd] write nothing but the status entry
    of the calling goalie: each makes one write, once it has the mutex, which
    sets [goalieStat[id]] to [WAITING_START_1] or [WAITING_START_2]
    (respectively [PLAYING_1] or [PLAYING_2]) according to [team == 1], and
    leaves [goaliesArrived], [goaliesFree], [playersFree], [playersArrived],
    [teamId] and the status of every other entity as it found them. *)
Theorem referee_phases_write_own_status_only id team o p :
  let waiting := if team =? 1 then WAITING_START_1 else WAITING_START_2 in
  let playing := if team =? 1 then PLAYING_1 else PLAYING_2 in
  let found := others o (Down mutex :: log p) (shm p) in
  (Forall (store_is (writes_status_only id waiting))
          (emitted p (snd (waitReferee id team o p))) /\
   writes (emitted p (snd (waitReferee id team o p)))
   = if sem_fails o (log p) then []
     else [Store found (set_goalieStat id waiting found)]) /\
  (Forall (store_is (writes_status_only id playing))
          (emitted p (snd (playUntilEnd id team o p))) /\
   writes (emitted p (snd (playUntilEnd id team o p)))
   = if sem_fails o (log p) then []
     else [Store found (set_goalieStat id playing found)]).
Proof.
  destruct p as [s l]. intros waiting playing found.
  subst found. cbn [log shm]. set (found := others o (Down mutex :: l) s). split.
  - change (wp (waitReferee id team) o (mkProcess s l)
              (fun _ p' =>
                 Forall (store_is (writes_status_only id waiting))
                        (emitted (mkProcess s l) p') /\
                 writes (emitted (mkProcess s l) p')
                 = if sem_fails o l then []
                   else [Store found (set_goalieStat id waiting found)])).
    unfold waitReferee. wp_run; emitted_simpl; settle_oracle.
    all: split; [Forall_list; simpl; auto using set_goalieStat_frame | reflexivity].
  - change (wp (playUntilEnd id team) o (mkProcess s l)
              (fun _ p' =>
                 Forall (store_is (writes_status_only id playing))
                        (emitted (mkProcess s l) p') /\
                 writes (emitted (mkProcess s l) p')
                 = if sem_fails o l then []
                   else [Store found (set_goalieStat id playing found)])).
    unfold playUntilEnd. wp_run; emitted_simpl; settle_oracle.
    all: split; [Forall_list; simpl; auto using set_goalieStat_frame | reflexivity].
Qed.

(** ** Waiting with the mutex held *)

Lemma trace_newest (e : event) h : rev (e :: h) = rev h ++ [e].
Proof. reflexivity. Qed.

Lemma formation_moves_app h1 h2 :
  formation_moves (h1 ++ h2) = formation_moves h1 ++ formation_moves h2.
Proof.
  induction h1 as [|e h1 IH]; [reflexivity|].
  destruct e; simpl; rewrite ?IH; try reflexivity.
  now destruct (bool_decide _).
Qed.

Lemma formation_moves_rev h : formation_moves (rev h) = rev (formation_moves h).
Proof.
  induction h as [|e h IH]; [reflexivity|].
  simpl rev. rewrite formation_moves_app, IH.
  destruct e; simpl; rewrite ?app_nil_r; try reflexivity.
  destruct (bool_decide _); simpl; now rewrite ?app_nil_r.
Qed.

Lemma formation_moves_handshakes n : formation_moves (handshakes n) = handshakes n.
Proof.
  unfold handshakes. induction n as [|n IH]; [reflexivity|].
  simpl. simpl in IH. now rewrite IH.
Qed.

Lemma handshakes_round j l :
  handshakes j ++ Down playerRegistered :: Up playersWaitTeam :: l
  = handshakes (S j) ++ l.
Proof.
  unfold handshakes. induction j as [|j IH]; [reflexivity|].
  simpl. simpl in IH. now rewrite IH.
Qed.

(** The loop of the forming goalie against any oracle: it ends in a failing
    call after fewer than [n] rounds, or returns after [n] rounds. *)
Lemma wp_handshake_loop_rounds n o s l (Q : outcome unit -> process -> Prop) :
  (forall s' j, (j < n)%nat -> Q Exited (mkProcess s' (handshakes j ++ l))) ->
  (forall s' j, (j < n)%nat ->
     Q Exited (mkProcess s' (Up playersWaitTeam :: handshakes j ++ l))) ->
  (forall s', Q (Returned tt) (mkProcess s' (handshakes n ++ l))) ->
  wp (for_loop n (semUp playersWaitTeam ;; semDown playerRegistered)) o
     (mkProcess s l) Q.
Proof.
  revert s l Q. induction n as [|n IH]; intros s l Q HU HD HR.
  - apply wp_ret. apply HR.
  - simpl. apply wp_bind. wp_prim. wp_prim.
    + apply (HU s 0%nat). lia.
    + wp_prim.
      * apply (HD s' 0%nat). lia.
      * apply IH.
        -- intros s'' j Hj. rewrite handshakes_round. apply HU. lia.
        -- intros s'' j Hj. rewrite handshakes_round. apply (HD s'' (S j)). lia.
        -- intros s''. rewrite handshakes_round. apply HR.
Qed.

Lemma rounds_prefix (r : list event) j n ev rest :
  (j < n)%nat -> ev `prefix_of` r ->
  concat (replicate j r) ++ ev `prefix_of` concat (replicate n r) ++ rest.
Proof.
  intros Hj [k Hk].
  replace n with (j + S (n - S j))%nat by lia.
  rewrite replicate_add, concat_app. simpl. rewrite <- !app_assoc.
  apply prefix_app. rewrite Hk, <- !app_assoc. now apply prefix_app_r.
Qed.

Ltac moves_of_trace :=
  unfold trace; emitted_simpl; rewrite formation_moves_rev;
  repeat (first [ progress cbn [formation_moves]
                | progress fields
                | rewrite bool_decide_eq_true_2 by reflexivity
                | rewrite bool_decide_eq_false_2 by lia
                | rewrite formation_moves_app
                | rewrite formation_moves_handshakes ]).

Ltac chrono :=
  rewrite ?trace_newest, ?rev_app_distr, ?rev_handshakes; cbn [rev app];
  unfold forming_moves; rewrite <- ?app_assoc; cbn [app].

Ltac prefix_done :=
  first [ apply prefix_nil
        | apply prefix_cons; prefix_done
        | apply prefix_app; prefix_done
        | eexists; reflexivity ].

Lemma forming_goalie_moves id o s l :
  late (others o (Down mutex :: l) s) = false ->
  quota_met (others o (Down mutex :: l) s) = true ->
  wp (goalieConstituteTeam id) o (mkProcess s l)
     (fun r p' => exists b,
        formation_moves (trace (mkProcess s l) p')
          `prefix_of` forming_moves b ++ [Down goaliesWaitTeam; Up playerRegistered] /\
        match r with
        | Returned _ =>
            forming_moves b `prefix_of` formation_moves (trace (mkProcess s l) p')
        | Exited => True
        end).
Proof.
  intros Hlate Hq.
  unfold late in Hlate. fields. apply negb_false_iff in Hlate.
  unfold quota_met in Hq. fields. apply negb_true_iff in Hq.
  unfold goalieConstituteTeam. wp_prim. wp_prim.
  { exists s. split; [|exact I]. moves_of_trace. apply prefix_nil. }
  subst s'. wp_run. rewrite Hlate. wp_run. rewrite Hq. wp_run.
  apply wp_handshake_loop_rounds.
  - intros s' j Hj. exists s'. split; [|exact I]. moves_of_trace. chrono.
    apply prefix_cons.
    rewrite <- (app_nil_r (concat (replicate j _))).
    apply rounds_prefix; [exact Hj | apply prefix_nil].
  - intros s' j Hj. exists s'. split; [|exact I]. moves_of_trace. chrono.
    apply prefix_cons.
    apply rounds_prefix; [exact Hj | eexists; reflexivity].
  - intros b. cbn beta iota.
    wp_until ltac:(exists b; split; [|exact I]; moves_of_trace; chrono; prefix_done).
    destruct (decide _);
      wp_until ltac:(exists b; split; [|exact I]; moves_of_trace; chrono; prefix_done).
    all: exists b; split; moves_of_trace; chrono; prefix_done.
Qed.

(** Claim C2, as the code has it.  No operation of the goalie waits on a
    semaphore with the mutex held, except [goalieConstituteTeam] on the
    forming branch, whatever the other processes do and whichever semaphore
    calls fail.  On that branch the mutex is not given back before the players
    are released: between [semDown] and [semUp] of the mutex the goalie
    releases each of the [NUMTEAMPLAYERS] players and waits for its
    acknowledgment, claims the team identifier by [teamId++] and signals the
    referee, in this order.  The branch is the one taken on the region the
    goalie finds when it obtains the mutex; a run that a failing call ends has
    made a first part of these moves, and a run that returns has made them
    all. *)
Theorem waits_under_mutex_only_when_forming id op o p :
  never_waits_under_mutex (log p) = true ->
  holds_mutex (log p) = false ->
  let found := others o (Down mutex :: log p) (shm p) in
  let r := fst (perform id op o p) in
  let p' := snd (perform id op o p) in
  if forms op found then
    exists b,
      formation_moves (trace p p')
        `prefix_of` forming_moves b ++ [Down goaliesWaitTeam; Up playerRegistered] /\
      match r with
      | Returned _ => forming_moves b `prefix_of` formation_moves (trace p p')
      | Exited => True
      end
  else never_waits_under_mutex (log p') = true.
Proof.
  intros Hl Hm found r p'. subst found r p'.
  destruct p as [s l]. cbn [log shm] in *.
  set (found := others o (Down mutex :: l) s).
  destruct (forms op found) eqn:Hforms.
  - destruct op; try discriminate Hforms. simpl in Hforms.
    apply andb_true_iff in Hforms as [Hlate Hq]. apply negb_true_iff in Hlate.
    change (wp (perform id ConstituteTeam) o (mkProcess s l)
              (fun r p' => exists b,
                 formation_moves (trace (mkProcess s l) p')
                   `prefix_of` forming_moves b
                               ++ [Down goaliesWaitTeam; Up playerRegistered] /\
                 match r with
                 | Returned _ =>
                     forming_moves b
                       `prefix_of` formation_moves (trace (mkProcess s l) p')
                 | Exited => True
                 end)).
    unfold perform. apply wp_bind.
    eapply wp_mono; [apply forming_goalie_moves; assumption|].
    intros [z|] q H; [apply wp_ret|]; exact H.
  - change (wp (perform id op) o (mkProcess s l)
              (fun _ p' => never_waits_under_mutex (log p') = true)).
    destruct op; unfold perform, arrive, goalieConstituteTeam, waitReferee,
      playUntilEnd.
    + wp_run; simpl; rewrite ?Hm, ?Hl; reflexivity.
    + simpl in Hforms. unfold late, quota_met in Hforms. fields.
      wp_prim. wp_prim. wp_prim; [exact Hl|]. subst s'. fold found.
      wp_until ltac:(simpl; rewrite ?Hm, ?Hl; reflexivity).
      destruct (_ <=? 2) eqn:Hlate.
      * simpl in Hforms. apply negb_false_iff in Hforms.
        wp_until ltac:(simpl; rewrite ?Hm, ?Hl; reflexivity).
        rewrite Hforms.
        wp_until ltac:(simpl; rewrite ?Hm, ?Hl; reflexivity).
        destruct (decide _);
          wp_until ltac:(simpl; rewrite ?Hm, ?Hl; reflexivity).
      * wp_until ltac:(simpl; rewrite ?Hm, ?Hl; reflexivity).
        destruct (decide _);
          wp_until ltac:(simpl; rewrite ?Hm, ?Hl; reflexivity).
    + wp_run; simpl; rewrite ?Hm, ?Hl; reflexivity.
    + wp_run; simpl; rewrite ?Hm, ?Hl; reflexivity.
Qed.

(** ** One step of the system *)

Lemma quiet_no_failure : no_failure quiet.
Proof. intros h. reflexivity. Qed.

Lemma quiet_respects_mutex : respects_mutex quiet.
Proof. intros h s _. reflexivity. Qed.

Lemma quiet_keeps_status id : keeps_status id quiet.
Proof. intros h s. reflexivity. Qed.

Lemma claims_handshakes n h : claims (handshakes n ++ h) = claims h.
Proof. unfold handshakes. induction n as [|n IH]; simpl; auto. Qed.

Lemma signals_handshakes n h : signals (handshakes n ++ h) = signals h.
Proof.
  unfold handshakes, signals. induction n as [|n IH]; [reflexivity|].
  simpl. exact IH.
Qed.

Lemma never_in_debt_handshakes n h :
  never_in_debt h -> never_in_debt (handshakes n ++ h).
Proof. unfold handshakes. induction n as [|n IH]; simpl; auto. Qed.

(** Steps of a process that runs alone. *)
Ltac alone :=
  repeat match goal with
  | Hs : ?s' = others quiet ?h ?s |- _ => change (s' = s) in Hs; subst s'
  end.

Ltac wp_alone :=
  repeat (wp_prim; try no_fail quiet_no_failure; alone;
          repeat match goal with
                 | H : sem_fails _ _ = false |- _ => clear H
                 end).

Ltac effect_done :=
  simpl in *; subst; repeat case_bool_decide; unfold solvent in *; simpl in *;
  try lia; intuition (try lia; try reflexivity).

(** What one operation of a goalie, run alone from region [s], leaves. *)
Lemma perform_quiet id op s :
  let p' := snd (perform id op quiet (mkProcess s [])) in
  claims (log p') = (if forms op s then [teamId s] else []) /\
  signals (log p') = (if forms op s then 1%nat else 0%nat) /\
  teamId (shm p') = teamId s + claimed op s /\
  goaliesArrived (shm p') = goaliesArrived s + enrolled op /\
  goaliesFree (shm p') = goaliesFree s + enrolled op - NUMTEAMGOALIES * claimed op s /\
  playersFree (shm p') = playersFree s - NUMTEAMPLAYERS * claimed op s /\
  (solvent s -> solvent (shm p') /\ never_in_debt (log p')).
Proof.
  intros p'. subst p'.
  change (wp (perform id op) quiet (mkProcess s [])
            (fun _ p' =>
               claims (log p') = (if forms op s then [teamId s] else []) /\
               signals (log p') = (if forms op s then 1%nat else 0%nat) /\
               teamId (shm p') = teamId s + claimed op s /\
               goaliesArrived (shm p') = goaliesArrived s + enrolled op /\
               goaliesFree (shm p')
               = goaliesFree s + enrolled op - NUMTEAMGOALIES * claimed op s /\
               playersFree (shm p') = playersFree s - NUMTEAMPLAYERS * claimed op s /\
               (solvent s -> solvent (shm p') /\ never_in_debt (log p')))).
  destruct op; unfold perform, arrive, goalieConstituteTeam, waitReferee,
    playUntilEnd, claimed, enrolled.
  - wp_alone. effect_done.
  - unfold forms, late, quota_met. fields. wp_alone.
    destruct (_ <=? 2) eqn:Hlate.
    + wp_alone. destruct (_ || _) eqn:Hq.
      * wp_alone. destruct (decide _); wp_alone; effect_done.
      * wp_alone.
        apply wp_handshake_loop;
          [apply quiet_no_failure | apply quiet_respects_mutex | reflexivity |].
        cbn beta iota.
        wp_alone. reservation.
        destruct (decide _) as [Hd|Hd].
        { exfalso. unfold status_of in Hd. simpl in Hd.
          apply written_status_is in Hd. discriminate Hd. }
        wp_alone. cbn [claims signals never_in_debt log shm]. fields.
        rewrite claims_handshakes, signals_handshakes.
        case_bool_decide; [lia|].
        repeat match goal with |- _ /\ _ => split end; try solve [effect_done].
        intros Hsolv. split; [effect_done|].
        split; [effect_done|].
        apply never_in_debt_handshakes. effect_done.
    + wp_alone. destruct (decide _); wp_alone; effect_done.
  - wp_alone. effect_done.
  - wp_alone. effect_done.
Qed.

(** ** The writes of an operation do not depend on the other processes *)

Lemma writes_handshakes n h : writes (handshakes n ++ h) = writes h.
Proof. unfold handshakes. induction n as [|n IH]; simpl; auto. Qed.

(** Among processes that respect the mutex, an operation writes what it
    writes when it runs alone from the region it finds: this is why a step of
    the system runs the operation alone. *)
Lemma perform_writes id op o p :
  no_failure o -> respects_mutex o ->
  writes (emitted p (snd (perform id op o p))) = critical_writes id op (shm p).
Proof.
  destruct p as [s l]. cbn [shm]. intros Hnf Hrm.
  change (wp (perform id op) o (mkProcess s l)
            (fun _ p' => writes (emitted (mkProcess s l) p') = critical_writes id op s)).
  destruct op; unfold perform, arrive, goalieConstituteTeam, waitReferee,
    playUntilEnd, critical_writes.
  - wp_calm Hnf Hrm. emitted_simpl. reflexivity.
  - unfold late, quota_met. fields. wp_calm Hnf Hrm.
    destruct (_ <=? 2) eqn:Hlate; simpl negb; cbv iota.
    + wp_calm Hnf Hrm. destruct (_ || _) eqn:Hq; simpl negb; cbv iota.
      * wp_calm Hnf Hrm.
        destruct (decide _); wp_calm Hnf Hrm; emitted_simpl; reflexivity.
      * wp_calm Hnf Hrm.
        apply wp_handshake_loop; [assumption..|reflexivity|]. cbn beta iota.
        wp_calm Hnf Hrm. rewrite rev_forming_script.
        destruct (decide _); wp_calm Hnf Hrm; emitted_simpl; simpl;
          rewrite !writes_handshakes; reflexivity.
    + wp_calm Hnf Hrm.
      destruct (decide _); wp_calm Hnf Hrm; emitted_simpl; reflexivity.
  - wp_calm Hnf Hrm. emitted_simpl. reflexivity.
  - wp_calm Hnf Hrm. emitted_simpl. reflexivity.
Qed.

Lemma perform_alone_writes id op o p :
  no_failure o -> respects_mutex o ->
  writes (emitted p (snd (perform id op o p)))
  = writes (log (snd (perform id op quiet (mkProcess (shm p) [])))).
Proof.
  intros Hnf Hrm. rewrite (perform_writes id op o p Hnf Hrm).
  pose proof (perform_writes id op quiet (mkProcess (shm p) [])
                quiet_no_failure quiet_respects_mutex) as H.
  cbn [shm] in H. rewrite <- H.
  unfold emitted. cbn [log length]. now rewrite Nat.sub_0_r, firstn_all.
Qed.

(** ** Runs of the system *)

Lemma claims_app h1 h2 : claims (h1 ++ h2) = claims h1 ++ claims h2.
Proof.
  induction h1 as [|[] h1 IH]; simpl; auto.
  case_bool_decide; simpl; now rewrite IH.
Qed.

Lemma signals_app h1 h2 : signals (h1 ++ h2) = (signals h1 + signals h2)%nat.
Proof.
  induction h1 as [|[| [] | | | |] h1 IH]; simpl; auto.
Qed.

Lemma never_in_debt_app h1 h2 :
  never_in_debt h1 -> never_in_debt h2 -> never_in_debt (h1 ++ h2).
Proof.
  induction h1 as [|[] h1 IH]; simpl; intuition.
Qed.

(** The identifiers a step claims on region [s], and the goalies and players
    it enrols. *)
Lemma sys_step_accounts w x :
  let w' := sys_step w x in
  let c := step_claimed x (region w) in
  claims (past w') = (if c =? 1 then [teamId (region w)] else []) ++ claims (past w) /\
  signals (past w') = (Z.to_nat c + signals (past w))%nat /\
  (c = 0 \/ c = 1) /\
  teamId (region w') = teamId (region w) + c /\
  goaliesArrived (region w')
  = goaliesArrived (region w) + (if is_constitute x then 1 else 0) /\
  goaliesFree (region w')
  = goaliesFree (region w) + (if is_constitute x then 1 else 0) - NUMTEAMGOALIES * c /\
  playersFree (region w')
  = playersFree (region w) + (if is_player_registers x then 1 else 0)
    - NUMTEAMPLAYERS * c /\
  (solvent (region w) -> never_in_debt (past w) ->
   solvent (region w') /\ never_in_debt (past w')).
Proof.
  destruct w as [s h]. destruct x as [id op| |]; cbn [sys_step region past step_claimed].
  - pose proof (perform_quiet id op s) as H. cbn zeta in H.
    destruct H as (Hc & Hs & Ht & Ha & Hg & Hp & Hsolv).
    rewrite claims_app, signals_app, Hc, Hs, Ht, Ha, Hg, Hp.
    unfold claimed in *. destruct (forms op s) eqn:Hf;
      (assert (He : enrolled op = if is_constitute (Goalie id op) then 1 else 0)
         by (now destruct op)); rewrite He; simpl;
      repeat match goal with |- _ /\ _ => split end;
      try solve [lia | reflexivity | auto].
    all: intros H1 H2; destruct (Hsolv H1) as [H3 H4];
      (split; [exact H3 | now apply never_in_debt_app]).
  - unfold player_registers, solvent. simpl.
    case_bool_decide; [|congruence].
    repeat match goal with |- _ /\ _ => split end; try lia; try reflexivity; auto.
    unfold solvent; simpl; intros; intuition lia.
  - unfold player_forms, region_after.
    destruct (_ && _) eqn:Hq; simpl.
    + apply andb_true_iff in Hq as [Hq1 Hq2]. reservation.
      repeat case_bool_decide; try congruence; try (simpl in *; lia).
      unfold solvent. simpl.
      repeat match goal with |- _ /\ _ => split end; try lia; try reflexivity; auto.
      unfold solvent; simpl; intros; intuition lia.
    + repeat match goal with |- _ /\ _ => split end; try lia; try reflexivity; auto.
Qed.

Lemma run_snoc xs x w : run (xs ++ [x]) w = sys_step (run xs w) x.
Proof. unfold run. now rewrite fold_left_app. Qed.

Lemma run_accounts xs s0 :
  let w := run xs (mkSystem s0 []) in
  let k := length (claims (past w)) in
  rev (claims (past w)) = seqZ (teamId s0) (Z.of_nat k) /\
  signals (past w) = k /\
  teamId (region w) = teamId s0 + Z.of_nat k /\
  goaliesArrived (region w) = goaliesArrived s0 + goalies_registered xs /\
  goaliesFree (region w)
  = goaliesFree s0 + goalies_registered xs - NUMTEAMGOALIES * Z.of_nat k /\
  playersFree (region w)
  = playersFree s0 + players_registered xs - NUMTEAMPLAYERS * Z.of_nat k /\
  (solvent s0 -> solvent (region w) /\ never_in_debt (past w)).
Proof.
  induction xs as [|x xs IH] using rev_ind.
  - simpl. unfold goalies_registered, players_registered. simpl.
    repeat match goal with |- _ /\ _ => split end; try lia; try reflexivity; auto.
  - cbn zeta in *. rewrite run_snoc.
    destruct IH as (Hc & Hs & Ht & Ha & Hg & Hp & Hsolv).
    pose proof (sys_step_accounts (run xs (mkSystem s0 [])) x) as H.
    cbn zeta in H. destruct H as (Hc' & Hs' & Hcase & Ht' & Ha' & Hg' & Hp' & Hsolv').
    unfold goalies_registered, players_registered.
    rewrite !List.filter_app, !length_app. simpl List.filter.
    rewrite Hc', Hs', Ht', Ha', Hg', Hp'.
    unfold goalies_registered, players_registered in *.
    destruct Hcase as [E | E]; rewrite E; simpl.
    + destruct (is_constitute x), (is_player_registers x); simpl;
        (repeat match goal with |- _ /\ _ => split end; try lia; auto);
        intros H0; destruct (Hsolv H0); now apply Hsolv'.
    + rewrite Hc, Ht, <- Hs.
      replace (Z.of_nat (S (signals (past (run xs (mkSystem s0 []))))))
        with (Z.of_nat (signals (past (run xs (mkSystem s0 [])))) + 1) by lia.
      rewrite seqZ_app by lia. simpl.
      destruct (is_constitute x), (is_player_registers x); simpl;
        (repeat match goal with |- _ /\ _ => split end; try lia; auto;
         try reflexivity);
        intros H0; destruct (Hsolv H0); now apply Hsolv'.
Qed.

(** Claim C4, as the code has it.  In any run of the system the team identifiers
    claimed, in the order of the claims, are [t, t+1, ..., t+k-1], where [t]
    is the value of [teamId] before the first claim and [k] the number of
    claims: consecutive, none claimed twice and none left out; [teamId] ends
    [k] above [t], and the referee was told of exactly [k] teams. *)
Theorem team_ids_are_consecutive xs s0 :
  let w := run xs (mkSystem s0 []) in
  let k := length (claims (past w)) in
  rev (claims (past w)) = seqZ (teamId s0) (Z.of_nat k) /\
  teamId (region w) = teamId s0 + Z.of_nat k /\
  signals (past w) = k.
Proof.
  pose proof (run_accounts xs s0) as H. cbn zeta in *.
  destruct H as (Hc & Hs & Ht & _). auto.
Qed.

(** Claim C8. In any run of the system from a region whose free counters are not
    negative, [goaliesFree] ends at its first value plus one for each goalie
    that went through [goalieConstituteTeam] (late ones too) minus
    [NUMTEAMGOALIES] for each team formed, [playersFree] at its first value
    plus one for each player that registered minus [NUMTEAMPLAYERS] for each
    team formed, and no write of the run finds or leaves a negative free
    counter. *)
Theorem free_counters_are_conserved xs s0 :
  solvent s0 ->
  let w := run xs (mkSystem s0 []) in
  let teams := Z.of_nat (length (claims (past w))) in
  goaliesFree (region w)
  = goaliesFree s0 + goalies_registered xs - NUMTEAMGOALIES * teams /\
  playersFree (region w)
  = playersFree s0 + players_registered xs - NUMTEAMPLAYERS * teams /\
  solvent (region w) /\ never_in_debt (past w).
Proof.
  intros Hs0. pose proof (run_accounts xs s0) as H. cbn zeta in *.
  destruct H as (_ & _ & _ & _ & Hg & Hp & Hsolv).
  destruct (Hsolv Hs0). auto.
Qed.

(** ** The goalie that forms the team *)

(** Claim C6. The goalie that finds both quotas met does, in this order: the
    reservation, then [NUMTEAMPLAYERS] times a release of one waiting player
    followed by the wait for its acknowledgment, then the post-increment of
    [teamId], then one signal to the referee, then the release of the mutex;
    it returns the identifier found by the post-increment. *)
Theorem forming_goalie_releases_then_claims id o p :
  no_failure o -> respects_mutex o -> keeps_status id o ->
  late (shm p) = false -> quota_met (shm p) = true ->
  let r := fst (goalieConstituteTeam id o p) in
  let p' := snd (goalieConstituteTeam id o p) in
  r = Returned (teamId (shm p)) /\
  trace p p' = forming_script id (shm p) ++ [Load (shm p')] /\
  teamId (formed_region id (shm p)) = teamId (shm p) + 1 /\
  claims (emitted p p') = [teamId (shm p)] /\
  signals (emitted p p') = 1%nat.
Proof.
  destruct p as [s l]. cbn [shm]. intros Hnf Hrm Hks Hlate Hq.
  pose proof (constitute_forming id o s l Hnf Hrm Hks Hlate Hq) as E.
  cbn zeta in E. rewrite E. cbn [fst snd shm]. unfold trace. emitted_simpl.
  rewrite trace_newest, rev_involutive.
  repeat match goal with |- _ /\ _ => split end; try reflexivity.
  - rewrite rev_forming_script. cbn [claims]. rewrite claims_handshakes. simpl.
    repeat case_bool_decide; simpl in *; try congruence; lia.
  - rewrite rev_forming_script. cbn [signals]. rewrite signals_handshakes.
    reflexivity.
Qed.

(** ** Late, waiting or forming *)

Lemma late_iff s : late s = true <-> 2 < goaliesArrived s + 1.
Proof.
  unfold late. fields. rewrite negb_true_iff, Z.leb_gt. reflexivity.
Qed.

Lemma status_of_registered id s : status_of id (registered s) = status_of id s.
Proof. reflexivity. Qed.

Lemma status_of_formed id s :
  status_of id (formed_region id s) = status_of id (forming_region id s).
Proof. reflexivity. Qed.

(** Claim C1, as the code has it.  [goalieConstituteTeam] marks the goalie [LATE]
    exactly when [goaliesArrived], after its own increment, is above the
    literal 2, whatever [NUMTEAMGOALIES] is and however many teams have been
    claimed.  The late goalie writes its status, gives the mutex back and
    returns 0 without any other semaphore call; otherwise the test of the two
    quotas decides between [WAITING_TEAM] and [FORMING_TEAM]. *)
Theorem late_exactly_beyond_two id o p :
  no_failure o -> respects_mutex o -> keeps_status id o ->
  (id < length (goalieStat (st (shm p))))%nat ->
  let r := fst (goalieConstituteTeam id o p) in
  let p' := snd (goalieConstituteTeam id o p) in
  (status_of id (shm p') = Some LATE <-> 2 < goaliesArrived (shm p) + 1) /\
  (if late (shm p) then
     r = Returned 0 /\ trace p p' = late_script id (shm p) ++ [Load (shm p')]
   else
     status_of id (shm p')
     = Some (if quota_met (shm p) then FORMING_TEAM else WAITING_TEAM)).
Proof.
  destruct p as [s l]. cbn [shm]. intros Hnf Hrm Hks Hid.
  rewrite <- late_iff.
  destruct (late s) eqn:Hlate.
  - pose proof (constitute_late id o s l Hnf Hrm Hks Hlate) as E.
    cbn zeta in E. rewrite E. cbn [fst snd shm].
    assert (Hst : status_of id (others o (rev (late_script id s) ++ l)
                                  (late_region id s)) = Some LATE).
    { rewrite Hks. now apply status_of_set_goalieStat. }
    split; [tauto|]. split; [reflexivity|].
    unfold trace. emitted_simpl. now rewrite trace_newest, rev_involutive.
  - destruct (quota_met s) eqn:Hq.
    + pose proof (constitute_forming id o s l Hnf Hrm Hks Hlate Hq) as E.
      cbn zeta in E. rewrite E. cbn [fst snd shm].
      assert (Hst : status_of id (others o (rev (forming_script id s) ++ l)
                                    (formed_region id s)) = Some FORMING_TEAM).
      { rewrite Hks, status_of_formed. now apply status_of_set_goalieStat. }
      rewrite Hst. split; [|reflexivity]. split; intros H; discriminate H.
    + pose proof (constitute_waiting id o s l Hnf Hrm Hks Hid Hlate Hq) as E.
      cbn zeta in E. rewrite E. cbn [fst snd shm].
      rewrite !Hks.
      assert (Hst : status_of id (waiting_region id s) = Some WAITING_TEAM)
        by now apply status_of_set_goalieStat.
      rewrite Hst. split; [|reflexivity]. split; intros H; discriminate H.
Qed.


(** ** The life cycle *)

Lemma bind_returned {A B : Type} (c : M A) (k : A -> M B) o p a p' :
  c o p = (Returned a, p') -> bind c k o p = k a o p'.
Proof. unfold bind. now intros ->. Qed.

Lemma arrive_returns n o s l :
  no_failure o -> respects_mutex o ->
  let sA := set_goalieStat n ARRIVING s in
  let h1 := Up mutex :: SaveState sA :: Store s sA :: Down mutex :: l in
  let h2 := Usleep :: h1 in
  arrive n o (mkProcess s l)
  = (Returned tt, mkProcess (others o h2 (others o h1 sA)) h2).
Proof.
  intros Hnf Hrm sA h1 h2. apply (wp_exact (arrive n)).
  unfold arrive. wp_calm Hnf Hrm. subst. split; reflexivity.
Qed.




(** Claim C9. Let two teams have been claimed in a run of the system that started
    with no goalie arrived, and let every team take at least one goalie.  A
    goalie whose life cycle starts then writes [ARRIVING] and later [LATE] and
    nothing else into its status entry; it takes the mutex twice, pauses once
    in between, and waits on no other semaphore: neither [goaliesWaitTeam]
    nor the semaphores of [waitReferee] and [playUntilEnd], which are not
    called. *)
Theorem latecomer_goes_straight_to_late n o xs s0 :
  goaliesArrived s0 = 0 -> goaliesFree s0 = 0 -> 0 <= playersFree s0 ->
  1 <= NUMTEAMGOALIES ->
  (2 <= length (claims (past (run xs (mkSystem s0 [])))))%nat ->
  (n < length (goalieStat (st (region (run xs (mkSystem s0 []))))))%nat ->
  no_failure o -> respects_mutex o -> keeps_status n o -> arrivals_monotone o ->
  let p0 := mkProcess (region (run xs (mkSystem s0 []))) [] in
  let p' := snd (main_life_cycle n o p0) in
  fst (main_life_cycle n o p0) = Returned tt /\
  syncs (trace p0 p') = [Down mutex; Up mutex; Usleep; Down mutex; Up mutex] /\
  statuses_written n (trace p0 p')
  = [Some ARRIVING; Some ARRIVING; Some ARRIVING; Some LATE] /\
  status_of n (shm p') = Some LATE.
Proof.
  intros Ha0 Hf0 Hp0 Hg Hk Hid Hnf Hrm Hks Hmono.
  pose proof (run_accounts xs s0) as H. cbn zeta in H.
  destruct H as (_ & _ & _ & Ha & Hgf & _ & Hsolv).
  destruct Hsolv as [[_ Hfree] _]; [unfold solvent; lia|].
  set (s := region (run xs (mkSystem s0 []))) in *.
  assert (Harr : 2 <= goaliesArrived s) by nia.
  clear Ha Hgf Hfree Hk. cbn zeta.
  pose proof (arrive_returns n o s [] Hnf Hrm) as Ea. cbn zeta in Ea.
  unfold main_life_cycle. rewrite (bind_returned _ _ _ _ _ _ Ea).
  set (la := Usleep :: _) in *. set (sa := others o la _) in *.
  assert (Hsa : status_of n sa = Some ARRIVING).
  { subst sa. rewrite !Hks. now apply status_of_set_goalieStat. }
  assert (Hida : (n < length (goalieStat (st sa)))%nat).
  { unfold status_of in Hsa. now apply lookup_lt_Some in Hsa. }
  assert (Harra : 2 <= goaliesArrived sa).
  { subst sa. etransitivity; [|apply Hmono]. etransitivity; [|apply Hmono].
    exact Harr. }
  assert (Hlate : late sa = true) by (apply late_iff; lia).
  pose proof (constitute_late n o sa la Hnf Hrm Hks Hlate) as E. cbn zeta in E.
  rewrite (bind_returned _ _ _ _ _ _ E). simpl (0 =? 0). cbv iota.
  unfold ret. cbn [fst snd shm].
  assert (Hst : status_of n (late_region n sa) = Some LATE)
    by (now apply status_of_set_goalieStat).
  unfold trace. emitted_simpl.
  repeat match goal with |- _ /\ _ => split end.
  - reflexivity.
  - subst la. reflexivity.
  - subst la. simpl. rewrite !status_of_registered, Hst, Hsa.
    unfold status_of. simpl. fold (status_of n sa). rewrite Hsa.
    f_equal. unfold status_of. simpl.
    now apply list_lookup_insert_eq.
  - now rewrite Hks.
Qed.

(** ** Every operation, against any behaviour of the rest of the system *)

(** Walking through an operation branch by branch. *)
Ltac wp_branch :=
  lazymatch goal with
  | |- wp (for_loop _ _) _ _ _ =>
      apply wp_handshake_loop_any; intros ?s'' ?ev ?Hev; cbn beta iota
  | |- wp (if ?b then _ else _) _ _ _ => destruct b eqn:?
  end.

Ltac wp_walk := repeat (first [wp_prim | wp_branch]).

Ltac unfold_operation :=
  unfold perform, arrive, goalieConstituteTeam, waitReferee, playUntilEnd.

Lemma Forall_handshake_events (P : event -> Prop) ev :
  P (Up playersWaitTeam) -> P (Down playerRegistered) ->
  Forall is_handshake ev -> Forall P ev.
Proof.
  intros H1 H2. induction 1 as [|e ev [-> | ->] _ IH]; constructor; auto.
Qed.

Ltac Forall_events :=
  repeat match goal with
  | |- Forall _ (_ :: _) => constructor
  | |- Forall _ [] => constructor
  | |- Forall _ (_ ++ _) => apply Forall_app; split
  | H : Forall is_handshake ?ev |- Forall _ ?ev =>
      apply (fun A B => Forall_handshake_events _ ev A B H)
  end.

Lemma keeps_the_others_status id v s : keeps_the_others id s (set_goalieStat id v s).
Proof.
  unfold keeps_the_others, status_of. simpl. repeat split; auto.
  - apply length_insert.
  - intros j Hj. now apply list_lookup_insert_ne.
Qed.

Lemma keeps_the_others_counter id s s' :
  st s' = st s -> playersArrived s' = playersArrived s -> keeps_the_others id s s'.
Proof.
  unfold keeps_the_others, status_of. intros -> ->. repeat split; auto.
Qed.

(** X2. No operation of goalie [id] writes a field of the players or the
    status entry of another goalie, whatever the other processes do and
    whichever semaphore call fails. *)
Theorem goalie_writes_keep_the_others id op o p :
  Forall (store_is (keeps_the_others id)) (emitted p (snd (perform id op o p))).
Proof.
  destruct p as [s l].
  change (wp (perform id op) o (mkProcess s l)
            (fun _ p' => Forall (store_is (keeps_the_others id))
                                (emitted (mkProcess s l) p'))).
  destruct op; unfold_operation; wp_walk; emitted_simpl; Forall_events;
    simpl; auto using keeps_the_others_status;
    apply keeps_the_others_counter; reflexivity.
Qed.

(** X3. No operation of the goalie ever lowers [goaliesArrived] or [teamId]:
    each of its writes leaves each of the two counters as it is or adds one,
    whatever the other processes do and whichever semaphore call fails. *)
Theorem goalie_writes_count_up id op o p :
  Forall (store_is counts_up) (emitted p (snd (perform id op o p))).
Proof.
  destruct p as [s l].
  change (wp (perform id op) o (mkProcess s l)
            (fun _ p' => Forall (store_is counts_up) (emitted (mkProcess s l) p'))).
  destruct op; unfold_operation; wp_walk; emitted_simpl; Forall_events;
    unfold counts_up; simpl; auto.
Qed.

Lemma arrivals_handshake_events ev h :
  Forall is_handshake ev -> arrivals (ev ++ h) = arrivals h.
Proof. induction 1 as [|e ev [-> | ->] _ IH]; simpl; auto. Qed.

(** X4. A call of [goalieConstituteTeam] that gets the mutex counts one
    arrival, no more and no less, on every way through it: the late goalie is
    counted, and so is the goalie whose process exits on a later semaphore
    call.  No other operation changes [goaliesArrived]. *)
Theorem one_arrival_per_constitution id op o p :
  let found := others o (Down mutex :: log p) (shm p) in
  let free := set_goaliesFree (goaliesFree found + 1) found in
  arrivals (emitted p (snd (perform id op o p)))
  = match op with
    | ConstituteTeam =>
        if sem_fails o (log p) then []
        else [Store free (set_goaliesArrived (goaliesArrived found + 1) free)]
    | _ => []
    end.
Proof.
  destruct p as [s l]. intros found free. subst free found. cbn [log shm].
  change (wp (perform id op) o (mkProcess s l)
            (fun _ p' =>
               arrivals (emitted (mkProcess s l) p')
               = match op with
                 | ConstituteTeam =>
                     if sem_fails o l then []
                     else [Store (set_goaliesFree
                                    (goaliesFree (others o (Down mutex :: l) s) + 1)
                                    (others o (Down mutex :: l) s))
                                 (set_goaliesArrived
                                    (goaliesArrived (others o (Down mutex :: l) s) + 1)
                                    (set_goaliesFree
                                       (goaliesFree (others o (Down mutex :: l) s) + 1)
                                       (others o (Down mutex :: l) s)))]
                 | _ => []
                 end)).
  destruct op; unfold_operation; wp_walk; emitted_simpl;
    repeat match goal with
           | H : sem_fails o l = _ |- _ => rewrite H
           end;
    cbn [arrivals app]; rewrite ?arrivals_handshake_events by assumption;
    cbn [arrivals]; fields;
    repeat case_bool_decide; try lia; try congruence; subst; reflexivity.
Qed.

(** X5. The goalie uses each semaphore in one direction, but for the mutex
    and [playerRegistered]: it never signals [goaliesWaitTeam],
    [playersWaitReferee] or [playersWaitEnd], on which goalies wait, and it
    never waits on [playersWaitTeam], [refereeWaitTeams] or [playing]. *)
Theorem goalie_calls_keep_their_direction id op o p :
  Forall (fun e => goalie_call e = true) (emitted p (snd (perform id op o p))).
Proof.
  destruct p as [s l].
  change (wp (perform id op) o (mkProcess s l)
            (fun _ p' => Forall (fun e => goalie_call e = true)
                                (emitted (mkProcess s l) p'))).
  destruct op; unfold_operation; wp_walk; emitted_simpl; Forall_events;
    reflexivity.
Qed.

(** The loop of the forming goalie ends in an exit only at a failed call. *)
Lemma wp_handshake_loop_exit n o s l (Q : outcome unit -> process -> Prop) :
  (forall s' ev, Forall is_handshake ev -> sem_fails o (ev ++ l) = true ->
                 Q Exited (mkProcess s' (ev ++ l))) ->
  (forall s' ev, Forall is_handshake ev -> Q (Returned tt) (mkProcess s' (ev ++ l))) ->
  wp (for_loop n (semUp playersWaitTeam ;; semDown playerRegistered)) o
     (mkProcess s l) Q.
Proof.
  intros HE HR.
  apply (wp_for_loop
           (fun _ q => exists s' ev, Forall is_handshake ev /\ q = mkProcess s' (ev ++ l))
           n 0).
  - exists s, []. split; [constructor | reflexivity].
  - intros j q (s' & ev & Hev & ->). wp_prim. wp_prim.
    + now apply HE.
    + wp_prim.
      * apply (HE _ (Up playersWaitTeam :: ev)); [|assumption].
        constructor; [now left | exact Hev].
      * exists s'1, (Down playerRegistered :: Up playersWaitTeam :: ev).
        split; [|reflexivity].
        constructor; [now right|]. constructor; [now left | exact Hev].
  - intros q (s' & ev & Hev & ->). now apply HR.
Qed.

Ltac wp_branch_exit :=
  lazymatch goal with
  | |- wp (for_loop _ _) _ _ _ =>
      apply wp_handshake_loop_exit;
      [intros ?s'' ?ev ?Hev ?Hfail | intros ?s'' ?ev ?Hev]; cbn beta iota
  | |- wp (if ?b then _ else _) _ _ _ => destruct b eqn:?
  end.

Ltac wp_walk_exit := repeat (first [wp_prim | wp_branch_exit]).

Lemma mutex_bracketed_handshake_events ev h :
  Forall is_handshake ev -> mutex_bracketed (ev ++ h) = mutex_bracketed h.
Proof. induction 1 as [|e ev [-> | ->] _ IH]; simpl; auto. Qed.

(** X6. Whatever the other processes do and whichever semaphore call fails,
    an operation started without the mutex takes it only when it does not
    hold it and gives it back only when it holds it; an operation that
    returns has given the mutex back, and a process that exits does so at a
    semaphore call that failed. *)
Theorem mutex_is_bracketed id op o p :
  mutex_bracketed (log p) = true -> holds_mutex (log p) = false ->
  let p' := snd (perform id op o p) in
  mutex_bracketed (log p') = true /\
  match fst (perform id op o p) with
  | Returned _ => holds_mutex (log p') = false
  | Exited => sem_fails o (log p') = true
  end.
Proof.
  destruct p as [s l]. cbn [log]. intros Hl Hm.
  change (wp (perform id op) o (mkProcess s l)
            (fun r p' =>
               mutex_bracketed (log p') = true /\
               match r with
               | Returned _ => holds_mutex (log p') = false
               | Exited => sem_fails o (log p') = true
               end)).
  destruct op; unfold_operation; wp_walk_exit; cbn [log];
    (split;
     [ cbn [mutex_bracketed holds_mutex];
       rewrite ?mutex_bracketed_handshake_events,
         ?holds_mutex_handshake_events by assumption;
       cbn [mutex_bracketed holds_mutex]; rewrite ?Hl, ?Hm; reflexivity
     | first [assumption | reflexivity | idtac] ]).
Qed.

(** X1. [arrive] makes one write, once it has the mutex: it sets
    [goalieStat[id]] to [ARRIVING] and leaves every counter, [teamId] and
    every other status entry as it found them.  It waits on no semaphore but
    the mutex, and a process that exits in it has at most taken the mutex. *)
Theorem arrive_writes_arriving_only id o p :
  let found := others o (Down mutex :: log p) (shm p) in
  let p' := snd (arrive id o p) in
  Forall (store_is (writes_status_only id ARRIVING)) (emitted p p') /\
  writes (emitted p p')
  = (if sem_fails o (log p) then []
     else [Store found (set_goalieStat id ARRIVING found)]) /\
  match fst (arrive id o p) with
  | Returned _ => syncs (trace p p') = [Down mutex; Up mutex; Usleep]
  | Exited => syncs (trace p p') = [] \/ syncs (trace p p') = [Down mutex]
  end.
Proof.
  destruct p as [s l]. intros found. subst found. cbn [log shm].
  change (wp (arrive id) o (mkProcess s l)
            (fun r p' =>
               Forall (store_is (writes_status_only id ARRIVING))
                      (emitted (mkProcess s l) p') /\
               writes (emitted (mkProcess s l) p')
               = (if sem_fails o l then []
                  else [Store (others o (Down mutex :: l) s)
                              (set_goalieStat id ARRIVING (others o (Down mutex :: l) s))]) /\
               match r with
               | Returned _ =>
                   syncs (trace (mkProcess s l) p') = [Down mutex; Up mutex; Usleep]
               | Exited =>
                   syncs (trace (mkProcess s l) p') = [] \/
                   syncs (trace (mkProcess s l) p') = [Down mutex]
               end)).
  unfold arrive, trace. wp_run; emitted_simpl; settle_oracle.
  - split; [constructor|]. split; [reflexivity|]. now left.
  - split; [Forall_list; simpl; auto using set_goalieStat_frame|].
    split; [reflexivity|]. now right.
  - split; [Forall_list; simpl; auto using set_goalieStat_frame|].
    split; reflexivity.
Qed.

(** The loop of the forming goalie among processes that respect the mutex. *)
Lemma wp_handshake_loop_held n o s l (Q : outcome unit -> process -> Prop) :
  respects_mutex o -> holds_mutex l = true ->
  (forall ev, Forall is_handshake ev -> Q Exited (mkProcess s (ev ++ l))) ->
  Q (Returned tt) (mkProcess s (handshakes n ++ l)) ->
  wp (for_loop n (semUp playersWaitTeam ;; semDown playerRegistered)) o
     (mkProcess s l) Q.
Proof.
  intros Hrm Hl HE HR.
  assert (Hhs : forall j, Forall is_handshake (handshakes j)).
  { intros j. unfold handshakes. induction j as [|j IH]; simpl.
    - constructor.
    - constructor; [now right|]. constructor; [now left | exact IH]. }
  apply (wp_for_loop (fun j q => q = mkProcess s (handshakes j ++ l)) n 0).
  - reflexivity.
  - intros j q ->. wp_prim. wp_prim.
    + apply HE, Hhs.
    + rewrite (Hrm _ s) in Hs' by (simpl; now rewrite holds_mutex_handshakes).
      subst s'. wp_prim.
      * apply (HE (Up playersWaitTeam :: handshakes j)).
        constructor; [now left | apply Hhs].
      * rewrite (Hrm _ s) in Hs' by (simpl; now rewrite holds_mutex_handshakes).
        subst s'. reflexivity.
  - intros q ->. exact HR.
Qed.

Ltac wp_branch_held Hrm :=
  lazymatch goal with
  | |- wp (for_loop _ _) _ _ _ =>
      apply wp_handshake_loop_held;
      [exact Hrm | reflexivity | intros ?ev ?Hev | ]; cbn beta iota
  | |- wp (if ?b then _ else _) _ _ _ => destruct b eqn:?
  end.

Ltac wp_walk_held Hrm :=
  repeat (first [wp_prim; try under_mutex Hrm | wp_branch_held Hrm]).

(** X7. Among processes that respect the mutex, the writes of an operation
    are all or nothing in the eyes of the others: an operation that returns
    has made the writes of its critical region, and a process that exits on a
    failed semaphore call has written nothing, or has made them all, or
    still holds the mutex. *)
Theorem exit_keeps_the_critical_region_whole id op o p :
  respects_mutex o ->
  let p' := snd (perform id op o p) in
  match fst (perform id op o p) with
  | Returned _ => writes (emitted p p') = critical_writes id op (shm p)
  | Exited =>
      holds_mutex (log p') = true \/
      writes (emitted p p') = [] \/
      writes (emitted p p') = critical_writes id op (shm p)
  end.
Proof.
  destruct p as [s l]. cbn [shm]. intros Hrm.
  change (wp (perform id op) o (mkProcess s l)
            (fun r p' =>
               match r with
               | Returned _ =>
                   writes (emitted (mkProcess s l) p') = critical_writes id op s
               | Exited =>
                   holds_mutex (log p') = true \/
                   writes (emitted (mkProcess s l) p') = [] \/
                   writes (emitted (mkProcess s l) p') = critical_writes id op s
               end)).
  destruct op; unfold_operation; unfold critical_writes, late, quota_met; fields;
    wp_walk_held Hrm; cbn [log]; emitted_simpl;
    repeat match goal with
           | H : (_ <=? 2) = _ |- _ => rewrite H
           | H : (_ || _) = _ |- _ => rewrite H
           end;
    cbn [negb]; cbv iota;
    first
      [ reflexivity
      | left; cbn [holds_mutex];
        rewrite ?holds_mutex_handshake_events by assumption; reflexivity
      | right; left; reflexivity
      | right; right; reflexivity
      | rewrite rev_forming_script; simpl; rewrite !writes_handshakes; reflexivity
      | right; right; rewrite rev_forming_script; simpl;
        rewrite !writes_handshakes; reflexivity ].
Qed.

(** ** Runs of the system, again *)


(** X9. A team is formed only from players and goalies that registered: in a
    run of the system from free counters that are not negative, the teams
    formed take no more than the players and goalies that were free at the
    start or registered since. *)
Theorem teams_take_registered_members xs s0 :
  solvent s0 ->
  let teams := Z.of_nat (length (claims (past (run xs (mkSystem s0 []))))) in
  NUMTEAMPLAYERS * teams <= playersFree s0 + players_registered xs /\
  NUMTEAMGOALIES * teams <= goaliesFree s0 + goalies_registered xs.
Proof.
  intros Hs0. pose proof (run_accounts xs s0) as H. cbn zeta in *.
  destruct H as (_ & _ & _ & _ & Hg & Hp & Hsolv).
  destruct (Hsolv Hs0) as [[H1 H2] _]. lia.
Qed.

(** ** The main program *)

Lemma goalie_number_small v : 0 <= v < 2 ^ 31 -> goalie_number v = v.
Proof.
  intros H. unfold goalie_number. rewrite Z.mod_small by lia.
  destruct (Z.ltb_spec v (2 ^ 31)); lia.
Qed.

Lemma goalie_number_negative v : - 2 ^ 31 <= v < 0 -> goalie_number v = v.
Proof.
  intros H. unfold goalie_number.
  replace (v mod 2 ^ 32) with (v + 2 ^ 32).
  - destruct (Z.ltb_spec (v + 2 ^ 32) (2 ^ 31)); lia.
  - apply Z.mod_unique with (q := -1); lia.
Qed.

(** X10. The test of the identification has no lower bound.  Started with
    four arguments and a negative identification that [strtol] reads to its
    end, [main] passes the test, connects to the semaphores and to the shared
    region, and calls [arrive] with the negative number: once [arrive] has the
    mutex it writes [goalieStat] below its first entry. *)
Theorem negative_identification_is_accepted a o p :
  argc a = 4 -> strtol_unread a = false ->
  - 2 ^ 31 <= strtol_value a < 0 -> 0 <= NUMGOALIES ->
  (logfile_length a <= 50)%nat ->
  ftok_fails a = false -> semConnect_fails a = false ->
  shmemConnect_fails a = false -> shmemAttach_fails a = false ->
  main a o p
  = if sem_fails o (log p) then (EXIT_FAILURE, p)
    else (UNDEFINED,
          mkProcess (others o (Down mutex :: log p) (shm p)) (Down mutex :: log p)).
Proof.
  intros Hargc Hun Hv Hn Hlen Hk Hs Hm Ha. unfold main.
  rewrite Hargc, Hun, Hk, Hs, Hm, Ha, (goalie_number_negative _ Hv). simpl.
  destruct (Z.leb_spec NUMGOALIES (strtol_value a)); [lia|].
  destruct (Nat.ltb_spec 50 (logfile_length a)); [lia|].
  destruct (Z.ltb_spec (strtol_value a) 0); [|lia].
  unfold semDown. destruct (sem_fails o (log p)); reflexivity.
Qed.

(** X11. [main] sees the identification modulo 2^32: two values that differ
    by a multiple of 2^32 start the same goalie, and a value from 0 to
    2^31 - 1 (every remainder modulo 2^31) is taken as it is. *)
Theorem identification_is_taken_modulo a k o p :
  main (mkLaunch (argc a) (strtol_value a + k * 2 ^ 32) (strtol_unread a)
                 (logfile_length a) (ftok_fails a) (semConnect_fails a)
                 (shmemConnect_fails a) (shmemAttach_fails a)
                 (shmemDettach_fails a)) o p
  = main a o p /\
  goalie_number (strtol_value a mod 2 ^ 31) = strtol_value a mod 2 ^ 31.
Proof.
  split; [|apply goalie_number_small, Z.mod_pos_bound; lia].
  unfold main, goalie_number. cbn [argc strtol_value strtol_unread logfile_length
    ftok_fails semConnect_fails shmemConnect_fails shmemAttach_fails
    shmemDettach_fails].
  now rewrite Z.mod_add by lia.
Qed.

(** X12. [main] makes no semaphore call and touches nothing of the shared
    region unless it was started with four arguments and an identification
    read to its end and below [NUMGOALIES], and [ftok], [semConnect],
    [shmemConnect] and [shmemAttach] all succeeded; it ends with
    [EXIT_SUCCESS] only if, moreover, the identification is not negative, the
    life cycle returned and [shmemDettach] succeeded. *)
Theorem main_starts_only_when_connected a o p :
  let connected :=
    argc a = 4 /\ strtol_unread a = false /\
    goalie_number (strtol_value a) < NUMGOALIES /\
    ftok_fails a = false /\ semConnect_fails a = false /\
    shmemConnect_fails a = false /\ shmemAttach_fails a = false in
  (snd (main a o p) = p \/ connected) /\
  match fst (main a o p) with
  | EXIT_SUCCESS =>
      connected /\
      0 <= goalie_number (strtol_value a) /\
      fst (main_life_cycle (Z.to_nat (goalie_number (strtol_value a))) o p)
      = Returned tt /\
      shmemDettach_fails a = false
  | _ => True
  end.
Proof.
  cbn zeta. unfold main.
  destruct (Z.eqb_spec (argc a) 4) as [Hargc|Hargc]; simpl; [|now split; [left|]].
  destruct (strtol_unread a); simpl; [now split; [left|]|].
  destruct (Z.leb_spec NUMGOALIES (goalie_number (strtol_value a))); simpl;
    [now split; [left|]|].
  destruct (50 <? logfile_length a)%nat; simpl; [now split; [left|]|].
  destruct (ftok_fails a); simpl; [now split; [left|]|].
  destruct (semConnect_fails a); simpl; [now split; [left|]|].
  destruct (shmemConnect_fails a); simpl; [now split; [left|]|].
  destruct (shmemAttach_fails a); simpl; [now split; [left|]|].
  split; [right; repeat split; auto|].
  destruct (Z.ltb_spec (goalie_number (strtol_value a)) 0).
  - now destruct (semDown mutex o p) as [[[]|] p'].
  - destruct (main_life_cycle _ o p) as [[[]|] p']; simpl; [|exact I].
    destruct (shmemDettach_fails a); [exact I|]. repeat split; auto.
Qed.

(** The end of [waitReferee] followed by [playUntilEnd]. *)
Lemma match_ends_playing n team o s l :
  no_failure o -> respects_mutex o -> keeps_status n o ->
  (n < length (goalieStat (st s)))%nat ->
  wp (waitReferee n team ;; playUntilEnd n team) o (mkProcess s l)
     (fun r p2 =>
        r = Returned tt /\
        status_of n (shm p2) = Some (if team =? 1 then PLAYING_1 else PLAYING_2)).
Proof.
  intros Hnf Hrm Hks Hid. unfold waitReferee, playUntilEnd.
  wp_calm Hnf Hrm. split; [reflexivity|]. cbn [shm].
  assert (Hx : status_of n s'1
               = Some (if team =? 1 then WAITING_START_1 else WAITING_START_2)).
  { rewrite Hs'1, Hks, Hs'0, Hks, Hs', Hks. now apply status_of_set_goalieStat. }
  rewrite Hs'3, Hks, Hs'2, Hks. apply status_of_set_goalieStat.
  unfold status_of in Hx. now apply lookup_lt_Some in Hx.
Qed.

(** X13. Started as goalie [n] of [NUMGOALIES] with every call succeeding,
    among processes that respect the mutex and leave its status entry alone,
    [main] ends with [EXIT_SUCCESS] whether the goalie was late or played.
    The status it leaves is [LATE] for the late goalie and [PLAYING_1] or
    [PLAYING_2] for a goalie that got a team: [PLAYING_1] for team 1 and
    [PLAYING_2] for any other identifier but 0.  A goalie that is not late and
    is handed the identifier 0 takes no part in the match and stays in
    [WAITING_TEAM] or [FORMING_TEAM]. *)
Theorem main_succeeds_late_or_playing a o p :
  argc a = 4 -> strtol_unread a = false ->
  0 <= strtol_value a < NUMGOALIES -> NUMGOALIES <= 2 ^ 31 ->
  (logfile_length a <= 50)%nat ->
  ftok_fails a = false -> semConnect_fails a = false ->
  shmemConnect_fails a = false -> shmemAttach_fails a = false ->
  shmemDettach_fails a = false ->
  let n := Z.to_nat (strtol_value a) in
  no_failure o -> respects_mutex o -> keeps_status n o ->
  (n < length (goalieStat (st (shm p))))%nat ->
  let pa := snd (arrive n o p) in
  fst (main a o p) = EXIT_SUCCESS /\
  exists team,
    fst (goalieConstituteTeam n o pa) = Returned team /\
    status_of n (shm (snd (main a o p))) = Some (last_status (shm pa) team).
Proof.
  intros Hargc Hun Hv Hn Hlen Hk Hs Hm Ha Hd n Hnf Hrm Hks Hid.
  unfold main.
  rewrite Hargc, Hun, Hk, Hs, Hm, Ha, Hd, (goalie_number_small (strtol_value a))
    by lia.
  simpl negb. cbv iota. simpl orb.
  destruct (Z.leb_spec NUMGOALIES (strtol_value a)); [lia|].
  destruct (Nat.ltb_spec 50 (logfile_length a)); [lia|].
  destruct (Z.ltb_spec (strtol_value a) 0); [lia|].
  fold n. destruct p as [s l]. cbn [shm] in Hid.
  pose proof (arrive_returns n o s l Hnf Hrm) as Ea. cbn zeta in Ea.
  unfold main_life_cycle. rewrite (bind_returned _ _ _ _ _ _ Ea).
  cbn zeta. rewrite Ea. cbn [snd].
  set (la := Usleep :: _) in *. set (sa := others o la _) in *.
  assert (Hsa : status_of n sa = Some ARRIVING).
  { subst sa. rewrite !Hks. now apply status_of_set_goalieStat. }
  assert (Hida : (n < length (goalieStat (st sa)))%nat).
  { unfold status_of in Hsa. now apply lookup_lt_Some in Hsa. }
  unfold last_status.
  destruct (late sa) eqn:Hlate; [|destruct (quota_met sa) eqn:Hq].
  - pose proof (constitute_late n o sa la Hnf Hrm Hks Hlate) as E. cbn zeta in E.
    rewrite (bind_returned _ _ _ _ _ _ E), E. cbn [fst snd shm].
    simpl (0 =? 0). cbv iota. unfold ret. cbn [fst snd shm].
    split; [reflexivity|]. exists 0. split; [reflexivity|].
    simpl (0 =? 0). cbv iota. rewrite Hlate, Hks.
    now apply status_of_set_goalieStat.
  - pose proof (constitute_forming n o sa la Hnf Hrm Hks Hlate Hq) as E.
    cbn zeta in E. rewrite (bind_returned _ _ _ _ _ _ E), E. cbn [fst snd shm].
    destruct (teamId sa =? 0) eqn:Hz.
    + unfold ret. cbn [fst snd shm]. split; [reflexivity|].
      exists (teamId sa). split; [reflexivity|].
      rewrite Hz, Hlate, Hq, Hks, status_of_formed.
      now apply status_of_set_goalieStat.
    + match goal with
      | |- context [bind _ _ o (mkProcess ?w ?h)] =>
          assert (Hw : (n < length (goalieStat (st w)))%nat);
          [|pose proof (match_ends_playing n (teamId sa) o w h Hnf Hrm Hks Hw)
             as [Hr Hst]]
      end.
      { assert (Hx : status_of n (others o (rev (forming_script n sa) ++ la)
                                    (formed_region n sa)) = Some FORMING_TEAM).
        { rewrite Hks, status_of_formed. now apply status_of_set_goalieStat. }
        unfold status_of in Hx. now apply lookup_lt_Some in Hx. }
      destruct (bind (waitReferee n (teamId sa)) _ o _) as [r p2].
      cbn [fst snd] in *. subst r. split; [reflexivity|].
      exists (teamId sa). split; [reflexivity|]. now rewrite Hz.
  - pose proof (constitute_waiting n o sa la Hnf Hrm Hks Hida Hlate Hq) as E.
    cbn zeta in E. rewrite (bind_returned _ _ _ _ _ _ E), E. cbn [fst snd shm].
    match goal with
    | |- context [exists team, Returned (teamId ?w) = _ /\ _] => set (w2 := w) in *
    end.
    assert (Hs2 : status_of n w2 = Some WAITING_TEAM).
    { subst w2. rewrite !Hks. now apply status_of_set_goalieStat. }
    destruct (teamId w2 =? 0) eqn:Hz.
    + unfold ret. cbn [fst snd shm]. split; [reflexivity|].
      exists (teamId w2). split; [reflexivity|]. now rewrite Hz, Hlate, Hq, Hks.
    + match goal with
      | |- context [bind _ _ o (mkProcess ?w ?h)] =>
          assert (Hw : (n < length (goalieStat (st w)))%nat);
          [|pose proof (match_ends_playing n (teamId w2) o w h Hnf Hrm Hks Hw)
             as [Hr Hst]]
      end.
      { assert (Hx : status_of n (others o
                        (Up playerRegistered :: Load w2 :: Down goaliesWaitTeam
                           :: Load (others o (rev (waiting_script n sa) ++ la)
                                      (waiting_region n sa))
                           :: rev (waiting_script n sa) ++ la) w2)
                     = Some WAITING_TEAM) by now rewrite Hks.
        unfold status_of in Hx. now apply lookup_lt_Some in Hx. }
      destruct (bind (waitReferee n (teamId w2)) _ o _) as [r p2].
      cbn [fst snd] in *. subst r. split; [reflexivity|].
      exists (teamId w2). split; [reflexivity|]. now rewrite Hz.
Qed.

End Goalie.

(** ** The oracles of the examples *)

Lemma another_team_no_failure : no_failure another_team_meanwhile.
Proof. intros h. reflexivity. Qed.

Lemma another_team_respects_mutex : respects_mutex another_team_meanwhile.
Proof. intros h s H. simpl. now rewrite H. Qed.

Lemma another_team_keeps_status id : keeps_status id another_team_meanwhile.
Proof.
  intros h s. simpl. destruct (holds_mutex h); [reflexivity|].
  destruct h as [|[[]| | | | |] h]; reflexivity.
Qed.

Lemma quiet_arrivals_monotone : arrivals_monotone quiet.
Proof. intros h s. simpl. lia. Qed.




(** ** Where the specification and the code part *)

(** Claim C1 fails as stated.  With two goalies per team the third goalie to
    arrive is late although 3 does not exceed twice the quota; and with one
    goalie per team, three goalies that arrive before any player leave the
    third one late although no team has been claimed. *)
Lemma late_without_two_teams :
  (let p' := snd (goalieConstituteTeam 2 2 2 quiet (mkProcess two_arrived [])) in
   fst (goalieConstituteTeam 2 2 2 quiet (mkProcess two_arrived [])) = Returned 0 /\
   status_of 2 (shm p') = Some LATE /\
   goaliesArrived (shm p') = 3 /\
   ~ goaliesArrived (shm p') > 2 * 2) /\
  (let w := run 2 1 [Goalie 0 ConstituteTeam; Goalie 1 ConstituteTeam;
                     Goalie 2 ConstituteTeam] (mkSystem fresh_region []) in
   status_of 2 (region w) = Some LATE /\
   claims (past w) = [] /\
   teamId (region w) = teamId fresh_region).
Proof.
  split; cbn zeta.
  - repeat split; try reflexivity. vm_compute. discriminate.
  - repeat split; reflexivity.
Qed.

(** Claim C2 fails as stated.  With two players per team and two players free, the
    goalie that forms the team waits twice on [playerRegistered] between its
    [semDown] and its [semUp] of the mutex. *)
Lemma forming_goalie_waits_under_mutex :
  let p := mkProcess players_ready [] in
  let p' := snd (goalieConstituteTeam 2 1 0 quiet p) in
  never_waits_under_mutex (log p') = false /\
  syncs (trace p p')
  = [Down mutex; Up playersWaitTeam; Down playerRegistered;
     Up playersWaitTeam; Down playerRegistered; Up refereeWaitTeams; Up mutex].
Proof. split; reflexivity. Qed.


(** Claim C4 fails as stated.  From the region in which [teamId] is 1, the goalie
    that forms the first team claims 1, and two teams formed one after the
    other claim 1 and 2, not 0 and 1. *)
Lemma first_team_is_not_zero :
  fst (goalieConstituteTeam 2 1 0 quiet (mkProcess players_ready [])) = Returned 1 /\
  (let w := run 2 1 [PlayerRegisters; PlayerRegisters; Goalie 0 ConstituteTeam;
                     PlayerRegisters; PlayerRegisters; Goalie 1 ConstituteTeam]
                (mkSystem fresh_region []) in
   rev (claims (past w)) = [1; 2] /\ rev (claims (past w)) <> seqZ 0 2).
Proof.
  split; [reflexivity|]. cbn zeta. split; [reflexivity|]. vm_compute. discriminate.
Qed.


(** ** The theorems at work *)

(** The third goalie of [two_arrived] is late and returns 0. *)
Lemma late_exactly_beyond_two_witness :
  let p := mkProcess two_arrived [] in
  let p' := snd (goalieConstituteTeam 2 1 2 another_team_meanwhile p) in
  (status_of 2 (shm p') = Some LATE <-> 2 < goaliesArrived (shm p) + 1) /\
  (if late (shm p) then
     fst (goalieConstituteTeam 2 1 2 another_team_meanwhile p) = Returned 0 /\
     trace p p' = late_script 2 (shm p) ++ [Load (shm p')]
   else
     status_of 2 (shm p')
     = Some (if quota_met 2 1 (shm p) then FORMING_TEAM else WAITING_TEAM)).
Proof.
  apply (late_exactly_beyond_two 2 1 2 another_team_meanwhile
           (mkProcess two_arrived [])).
  - exact another_team_no_failure.
  - exact another_team_respects_mutex.
  - exact (another_team_keeps_status 2).
  - simpl. lia.
Defined.

(** The goalie that finds two players free makes all the moves of a formation
    between its [semDown] and its [semUp] of the mutex; the goalie that finds
    none waits without the mutex. *)
Lemma waits_under_mutex_only_when_forming_witness :
  (let p := mkProcess players_ready [] in
   let p' := snd (perform 2 1 0 ConstituteTeam quiet p) in
   exists b,
     formation_moves (trace p p')
       `prefix_of` forming_moves 2 b ++ [Down goaliesWaitTeam; Up playerRegistered] /\
     forming_moves 2 b `prefix_of` formation_moves (trace p p')) /\
  never_waits_under_mutex
    (log (snd (perform 2 1 0 ConstituteTeam another_team_meanwhile
                       (mkProcess fresh_region [])))) = true.
Proof.
  split.
  - exact (waits_under_mutex_only_when_forming 2 1 0 ConstituteTeam quiet
             (mkProcess players_ready []) eq_refl eq_refl).
  - exact (waits_under_mutex_only_when_forming 2 1 0 ConstituteTeam
             another_team_meanwhile (mkProcess fresh_region []) eq_refl eq_refl).
Defined.



(** The goalie that finds two players free claims team 1. *)
Lemma forming_goalie_releases_then_claims_witness :
  let p := mkProcess players_ready [] in
  let p' := snd (goalieConstituteTeam 2 1 0 quiet p) in
  fst (goalieConstituteTeam 2 1 0 quiet p) = Returned (teamId (shm p)) /\
  trace p p' = forming_script 2 1 0 (shm p) ++ [Load (shm p')] /\
  teamId (formed_region 2 1 0 (shm p)) = teamId (shm p) + 1 /\
  claims (emitted p p') = [teamId (shm p)] /\
  signals (emitted p p') = 1%nat.
Proof.
  apply (forming_goalie_releases_then_claims 2 1 0 quiet (mkProcess players_ready [])).
  - exact quiet_no_failure.
  - exact quiet_respects_mutex.
  - exact (quiet_keeps_status 0).
  - reflexivity.
  - reflexivity.
Defined.

(** The history of the forming goalie keeps the discipline of the writes. *)
Lemma free_counters_fall_by_reservation_witness :
  reserves_by_quota 2 1 [] /\
  reserves_by_quota 2 1
    (log (snd (perform 2 1 0 ConstituteTeam quiet (mkProcess players_ready [])))).
Proof.
  split; [exact I|].
  apply (free_counters_fall_by_reservation 2 1 0 ConstituteTeam quiet
           (mkProcess players_ready [])).
  exact I.
Defined.

(** Two teams are formed in [full_house] and the third goalie is late. *)
Lemma free_counters_are_conserved_witness :
  let w := run 2 1 full_house (mkSystem fresh_region []) in
  let teams := Z.of_nat (length (claims (past w))) in
  goaliesFree (region w)
  = goaliesFree fresh_region + goalies_registered full_house - 1 * teams /\
  playersFree (region w)
  = playersFree fresh_region + players_registered full_house - 2 * teams /\
  solvent (region w) /\ never_in_debt (past w).
Proof.
  apply (free_counters_are_conserved 2 1 full_house fresh_region).
  unfold solvent. simpl. lia.
Defined.

(** After the two teams of [full_house] but for its last step, goalie 2 goes
    straight from [ARRIVING] to [LATE]. *)
Lemma latecomer_goes_straight_to_late_witness :
  let xs := removelast full_house in
  let p0 := mkProcess (region (run 2 1 xs (mkSystem fresh_region []))) [] in
  let p' := snd (main_life_cycle 2 1 2 quiet p0) in
  fst (main_life_cycle 2 1 2 quiet p0) = Returned tt /\
  syncs (trace p0 p') = [Down mutex; Up mutex; Usleep; Down mutex; Up mutex] /\
  statuses_written 2 (trace p0 p')
  = [Some ARRIVING; Some ARRIVING; Some ARRIVING; Some LATE] /\
  status_of 2 (shm p') = Some LATE.
Proof.
  apply (latecomer_goes_straight_to_late 2 1 2 quiet (removelast full_house)
           fresh_region).
  - reflexivity.
  - reflexivity.
  - simpl. lia.
  - lia.
  - vm_compute. lia.
  - vm_compute. lia.
  - exact quiet_no_failure.
  - exact quiet_respects_mutex.
  - exact (quiet_keeps_status 2).
  - exact quiet_arrivals_monotone.
Defined.

(** ** More theorems at work *)

(** The goalie overtaken by another team keeps the mutex bracketed. *)
Lemma mutex_is_bracketed_witness :
  let c := perform 2 1 0 ConstituteTeam another_team_meanwhile
                   (mkProcess fresh_region []) in
  mutex_bracketed (log (snd c)) = true /\
  match fst c with
  | Returned _ => holds_mutex (log (snd c)) = false
  | Exited => sem_fails another_team_meanwhile (log (snd c)) = true
  end.
Proof.
  apply (mutex_is_bracketed 2 1 0 ConstituteTeam another_team_meanwhile
           (mkProcess fresh_region [])); reflexivity.
Defined.

Lemma fails_after_seven_respects_mutex : respects_mutex fails_after_seven.
Proof. intros h s _. reflexivity. Qed.

(** The forming goalie whose first release of a player fails exits with the
    mutex held. *)
Lemma exit_keeps_the_critical_region_whole_witness :
  let p := mkProcess players_ready [] in
  let c := perform 2 1 0 ConstituteTeam fails_after_seven p in
  match fst c with
  | Returned _ => writes (emitted p (snd c)) = critical_writes 2 1 0 ConstituteTeam (shm p)
  | Exited =>
      holds_mutex (log (snd c)) = true \/
      writes (emitted p (snd c)) = [] \/
      writes (emitted p (snd c)) = critical_writes 2 1 0 ConstituteTeam (shm p)
  end.
Proof.
  apply (exit_keeps_the_critical_region_whole 2 1 0 ConstituteTeam
           fails_after_seven (mkProcess players_ready [])).
  exact fails_after_seven_respects_mutex.
Defined.

(** The two teams of [full_house] took four players and two goalies. *)
Lemma teams_take_registered_members_witness :
  let teams := Z.of_nat (length (claims (past (run 2 1 full_house
                                                   (mkSystem fresh_region []))))) in
  2 * teams <= playersFree fresh_region + players_registered full_house /\
  1 * teams <= goaliesFree fresh_region + goalies_registered full_house.
Proof.
  apply (teams_take_registered_members 2 1 full_house fresh_region).
  unfold solvent. simpl. lia.
Defined.

(** Started with [-1], [main] gets as far as the mutex. *)
Lemma negative_identification_is_accepted_witness :
  main 2 1 3 minus_one_launch quiet (mkProcess fresh_region [])
  = (UNDEFINED, mkProcess fresh_region [Down mutex]).
Proof.
  apply (negative_identification_is_accepted 2 1 3 minus_one_launch quiet
           (mkProcess fresh_region [])); try reflexivity; simpl; lia.
Defined.

(** Goalie 0 finds two players free, forms team 1 and plays in it. *)
Lemma main_succeeds_late_or_playing_witness :
  let p := mkProcess players_ready [] in
  let pa := snd (arrive 0 quiet p) in
  fst (main 2 1 3 first_goalie_launch quiet p) = EXIT_SUCCESS /\
  exists team,
    fst (goalieConstituteTeam 2 1 0 quiet pa) = Returned team /\
    status_of 0 (shm (snd (main 2 1 3 first_goalie_launch quiet p)))
    = Some (last_status 2 1 (shm pa) team).
Proof.
  apply (main_succeeds_late_or_playing 2 1 3 first_goalie_launch quiet
           (mkProcess players_ready [])); try reflexivity.
  - simpl. lia.
  - simpl. lia.
  - simpl. lia.
  - exact quiet_no_failure.
  - exact quiet_respects_mutex.
  - exact (quiet_keeps_status 0).
  - simpl. lia.
Defined.
